(** * MedAssist AI: conversation store, chat gateway and safety layer

    A shallow embedding of the core classes of [medical_bot.py]
    ([ConversationManager], [MedicalLLMClient.chat], [SafetyLayer]) and the
    properties of its specification, stated over that embedding.

    Modelling conventions.
    - Python [int] is [Z]; Python [list] is [list]; a [dict] with a fixed set
      of keys is a record.
    - Python [str] is [string] (a sequence of bytes).  [str.lower] is modelled
      on the ASCII letters, which is exact for ASCII text; the keyword tables
      of the program are ASCII.
    - List slices [l[k:]] and [l[:k]] follow Python's rule for negative and
      out-of-range bounds, written out in [slice_from] and [slice_to].
    - The remote endpoint and the clock are not part of the program: the
      remote is a script giving the outcome of each call in turn, and every
      call and every [time.sleep] is recorded in a trace. *)

From Stdlib Require Import ZArith Ascii String DecimalString.
From stdpp Require Import base tactics list strings gmap.

Local Open Scope string_scope.
Local Open Scope Z_scope.
Local Open Scope list_scope.

(** ** Python primitives *)

Module Py.

(** [c.lower()] for one ASCII character. *)
Definition lower_ascii (c : ascii) : ascii :=
  let n := nat_of_ascii c in
  if ((65 <=? n) && (n <=? 90))%nat then ascii_of_nat (n + 32) else c.

(** [s.lower()]. *)
Fixpoint lower (s : string) : string :=
  match s with
  | EmptyString => EmptyString
  | String c s' => String (lower_ascii c) (lower s')
  end.

(** [needle in hay] on strings: is [needle] a substring of [hay]? *)
Fixpoint contains (needle hay : string) : bool :=
  String.prefix needle hay ||
  match hay with
  | EmptyString => false
  | String _ hay' => contains needle hay'
  end.

(** [any(f(x) for x in l)]. *)
Definition any {A} (f : A → bool) (l : list A) : bool := existsb f l.

(** [l[k:]]: a negative bound counts from the end, and both are clamped
    to the list. Note that [-0 = 0], so [l[-0:]] is the whole list. *)
Definition slice_from {A} (k : Z) (l : list A) : list A :=
  let n := Z.of_nat (length l) in
  let start := if k <? 0 then Z.max (n + k) 0 else Z.min k n in
  drop (Z.to_nat start) l.

(** [l[:k]]. *)
Definition slice_to {A} (k : Z) (l : list A) : list A :=
  let n := Z.of_nat (length l) in
  let stop := if k <? 0 then Z.max (n + k) 0 else Z.min k n in
  take (Z.to_nat stop) l.

(** [str(n)] for an integer. *)
Definition str_of_int (n : Z) : string :=
  NilZero.string_of_int (Z.to_int n).

End Py.

(** ** Configuration *)

Definition MODEL : string := "gemini-2.5-flash".

Definition EMERGENCY_KEYWORDS : list string :=
  [ "chest pain"; "heart attack"; "can't breathe"; "cannot breathe";
    "difficulty breathing"; "stroke"; "unconscious"; "unresponsive";
    "severe bleeding"; "overdose"; "suicide"; "kill myself";
    "not breathing"; "seizure"; "anaphylaxis" ].

(** ** JSON documents and files *)

(** The values handed to [json.dump]: strings, lists and dicts with string
    keys, in insertion order. *)
#[local] Unset Elimination Schemes.
Inductive Json :=
| JStr (s : string)
| JArr (items : list Json)
| JObj (fields : list (string * Json)).
#[local] Set Elimination Schemes.

(** The file system: the document last written under each name. *)
Abbreviation Files := (gmap string Json).

(** ** Conversation memory *)

(** One entry of [ConversationManager.history]:
    [{"role": role, "content": content}]. *)
Record Turn := mkTurn { role : string; content : string }.

(** One entry of the history sent to the remote endpoint:
    [{"role": role, "parts": [{"text": text}]}]. *)
Record Part := mkPart { text : string }.
Record GeminiMsg := mkGeminiMsg { g_role : string; parts : list Part }.

Module ConversationManager.

Record t := mk { max_turns : Z; history : list Turn }.

(** [__init__(self, max_turns=20)]. *)
Definition init (max_turns : Z) : t := mk max_turns [].
Definition default : t := init 20.

(** [add(self, role, content)]. *)
Definition add (self : t) (role content : string) : t :=
  let history := history self ++ [mkTurn role content] in
  if Z.of_nat (length history) >? max_turns self * 2
  then mk (max_turns self) (Py.slice_from (- (max_turns self * 2)) history)
  else mk (max_turns self) history.

(** The body of the loop of [to_gemini_history]. *)
Definition to_gemini (msg : Turn) : GeminiMsg :=
  let role := if String.eqb (role msg) "assistant" then "model" else "user" in
  mkGeminiMsg role [mkPart (content msg)].

(** [to_gemini_history(self)]: the loop appends one item per element of
    [self.history[:-1]]. *)
Definition to_gemini_history (self : t) : list GeminiMsg :=
  map to_gemini (Py.slice_to (-1) (history self)).

(** The loop of [latest_user_message] over an already reversed list. *)
Fixpoint first_user (l : list Turn) : string :=
  match l with
  | [] => ""
  | msg :: l' =>
      if String.eqb (role msg) "user" then content msg else first_user l'
  end.

(** [latest_user_message(self)]. *)
Definition latest_user_message (self : t) : string :=
  first_user (reverse (history self)).

(** [clear(self)]. *)
Definition clear (self : t) : t := mk (max_turns self) [].

(** A history entry as the dict it is: [{"role": ..., "content": ...}]. *)
Definition turn_json (m : Turn) : Json :=
  JObj [("role", JStr (role m)); ("content", JStr (content m))].

(** [save(self, filename)]; [now] is [datetime.datetime.now().isoformat()].
    Returns [filename] and leaves the document in the file. *)
Definition save (self : t) (filename now : string) (fs : Files)
    : string * Files :=
  let data :=
    JObj [("app", JStr "MedAssist AI (Gemini)");
          ("model", JStr MODEL);
          ("saved_at", JStr now);
          ("messages", JArr (map turn_json (history self)))] in
  (filename, <[filename := data]> fs).

(** A sequence of [add] calls, oldest first. *)
Definition add_all (self : t) (turns : list Turn) : t :=
  foldl (λ s m, add s (role m) (content m)) self turns.

End ConversationManager.

Module CM := ConversationManager.

(** ** LLM client *)

(** What one attempt (open a session, send the prompt) comes back with:
    [response.text], or an exception, kept by its [str(e)]. *)
Inductive Outcome :=
| Response (text : string)
| Failure (e : string).

(** What every attempt submits: the replayed history and the prompt. *)
Record Request := mkRequest { req_history : list GeminiMsg; req_text : string }.

(** The remote endpoint: the outcome of its [n]-th call (from 0). *)
Definition Remote := nat → Request → Outcome.

(** What [chat] does to the outside world, in order. *)
Inductive Event :=
| Call (attempt : Z) (rq : Request) (o : Outcome)
| Sleep (seconds : Z).

(** The four [raise RuntimeError(...)] of [chat], in source order. *)
Inductive ChatError :=
| RateLimited
| AuthError
| ExhaustedRetries (retries : Z) (e : string)
| FailedAfterRetries.

Inductive Result :=
| Return (text : string)
| Raise (err : ChatError).

Module MedicalLLMClient.

(** The text each [RuntimeError] is raised with. *)
Definition message (err : ChatError) : string :=
  match err with
  | RateLimited => "⚠️ Rate limit hit. Please wait and try again."
  | AuthError => "❌ Invalid API key. Check GEMINI_API_KEY in Colab Secrets."
  | ExhaustedRetries retries e =>
      "❌ API error after " +:+ Py.str_of_int retries +:+ " attempts: " +:+ e
  | FailedAfterRetries => "❌ Failed after retries."
  end.

(** The two tests of the [except] branch, on [err_str = str(e).lower()]. *)
Definition is_rate (err_str : string) : bool :=
  Py.contains "quota" err_str || Py.contains "rate" err_str.

Definition is_auth (err_str : string) : bool :=
  Py.contains "api key" err_str || Py.contains "authentication" err_str
  || Py.contains "invalid" err_str.

(** [range(a, b)]. *)
Definition range (a b : Z) : list Z := seqZ a (b - a).

(** The [for attempt in ...] loop; [calls] counts the calls made so far. *)
Fixpoint chat_loop (remote : Remote) (rq : Request) (retries : Z)
    (attempts : list Z) (calls : nat) : Result * list Event :=
  match attempts with
  | [] => (Raise FailedAfterRetries, [])
  | attempt :: attempts' =>
      match remote calls rq with
      | Response text => (Return text, [Call attempt rq (Response text)])
      | Failure e =>
          let err_str := Py.lower e in
          if is_rate err_str then
            (Raise RateLimited, [Call attempt rq (Failure e)])
          else if is_auth err_str then
            (Raise AuthError, [Call attempt rq (Failure e)])
          else if attempt <? retries then
            let '(r, tr) := chat_loop remote rq retries attempts' (S calls) in
            (r, Call attempt rq (Failure e) :: Sleep (2 * attempt) :: tr)
          else
            (Raise (ExhaustedRetries retries e), [Call attempt rq (Failure e)])
      end
  end.

(** What [chat] builds before its loop: [history] and [user_text]. *)
Definition request (conversation : CM.t) : Request :=
  let history := CM.to_gemini_history conversation in
  let user_text := CM.latest_user_message conversation in
  mkRequest history user_text.

(** [chat(self, conversation, retries=3)]. *)
Definition chat (remote : Remote) (conversation : CM.t) (retries : Z)
    : Result * list Event :=
  chat_loop remote (request conversation) retries (range 1 (retries + 1)) 0.

(** The remote calls of a trace, in order. *)
Definition calls (tr : list Event) : list Outcome :=
  omap (λ ev, match ev with Call _ _ o => Some o | Sleep _ => None end) tr.

(** A remote that plays a fixed script, then keeps timing out. *)
Definition scripted (script : list Outcome) : Remote :=
  λ n _, nth n script (Failure "timed out").

End MedicalLLMClient.

Module LLM := MedicalLLMClient.

(** ** Safety layer *)

Module SafetyLayer.

(** [is_emergency(text)]. *)
Definition is_emergency (text : string) : bool :=
  let lower := Py.lower text in
  Py.any (λ kw, Py.contains kw lower) EMERGENCY_KEYWORDS.

End SafetyLayer.

(** ** Reading a snapshot back *)

Module Snapshot.

(** Modelled from the spec: [d[k]] on a loaded dict. *)
Fixpoint get (k : string) (fields : list (string * Json)) : option Json :=
  match fields with
  | [] => None
  | (k', v) :: fields' => if String.eqb k k' then Some v else get k fields'
  end.

(** Modelled from the spec: a field of a loaded document. *)
Definition field (k : string) (v : Json) : option Json :=
  match v with JObj fields => get k fields | _ => None end.

(** Modelled from the spec: a loaded value read as a string. *)
Definition as_str (v : Json) : option string :=
  match v with JStr s => Some s | _ => None end.

(** Modelled from the spec: the reader of a snapshot, which the repository
    does not have ("reloading the snapshot's [messages] field reproduces K
    turns"): one [{role, content}] entry read back as a turn. *)
Definition turn_of_json (v : Json) : option Turn :=
  r ← field "role" v ≫= as_str;
  c ← field "content" v ≫= as_str;
  Some (mkTurn r c).

(** Modelled from the spec: reading back the [messages] field of the
    snapshot stored under [filename]. *)
Definition load_messages (fs : Files) (filename : string)
    : option (list Turn) :=
  doc ← fs !! filename;
  msgs ← field "messages" doc;
  match msgs with
  | JArr items => mapM turn_of_json items
  | _ => None
  end.

End Snapshot.

(** ** The roles of the program *)

(** The roles [add] is called with anywhere in the program. *)
Definition internal_role (r : string) : Prop := r = "user" ∨ r = "assistant".

(** The roles sent to the remote endpoint. *)
Definition wire_role (r : string) : Prop := r = "user" ∨ r = "model".

(** Substring, as a proposition. *)
Definition occurs_in (needle hay : string) : Prop :=
  ∃ pre post, hay = pre +:+ needle +:+ post.

(** The error classes of the specification, on the message of a failure:
    case-insensitive substring match. *)
Definition rate_like (e : string) : Prop :=
  occurs_in "quota" (Py.lower e) ∨ occurs_in "rate" (Py.lower e).

Definition auth_like (e : string) : Prop :=
  occurs_in "api key" (Py.lower e) ∨ occurs_in "authentication" (Py.lower e)
  ∨ occurs_in "invalid" (Py.lower e).

Definition transient (e : string) : Prop := ¬ rate_like e ∧ ¬ auth_like e.

(** The methods of a store as commands, to speak about sequences of calls. *)
Inductive Method :=
| MAdd (role content : string)
| MHistory
| MLatest
| MClear.

Inductive Answer :=
| ANone
| AHistory (h : list GeminiMsg)
| ALatest (s : string).

(** One method call: the answer and the store it leaves. Only [add] and
    [clear] assign to [self.history]. *)
Definition call (self : CM.t) (m : Method) : Answer * CM.t :=
  match m with
  | MAdd role content => (ANone, CM.add self role content)
  | MHistory => (AHistory (CM.to_gemini_history self), self)
  | MLatest => (ALatest (CM.latest_user_message self), self)
  | MClear => (ANone, CM.clear self)
  end.

(** The methods that assign to [self.history]. *)
Definition mutates (m : Method) : bool :=
  match m with MAdd _ _ | MClear => true | MHistory | MLatest => false end.

(** A sequence of method calls; the store it leaves. *)
Definition run (self : CM.t) (ms : list Method) : CM.t :=
  foldl (λ s m, (call s m).2) self ms.

(** ** The retry loop as a relation *)

(** [runs remote rq retries a c res tr]: entered at attempt number [a] after
    [c] calls, the loop of [chat] ends with [res] and does [tr]. One rule
    per way through the loop body; the proofs about [chat] go by induction
    on it. *)
Inductive runs (remote : Remote) (rq : Request) (retries : Z)
  : Z → nat → Result → list Event → Prop :=
| runs_over a c :
    retries < a →
    runs remote rq retries a c (Raise FailedAfterRetries) []
| runs_response a c text :
    a ≤ retries → remote c rq = Response text →
    runs remote rq retries a c (Return text) [Call a rq (Response text)]
| runs_rate a c e :
    a ≤ retries → remote c rq = Failure e →
    LLM.is_rate (Py.lower e) = true →
    runs remote rq retries a c (Raise RateLimited) [Call a rq (Failure e)]
| runs_auth a c e :
    a ≤ retries → remote c rq = Failure e →
    LLM.is_rate (Py.lower e) = false → LLM.is_auth (Py.lower e) = true →
    runs remote rq retries a c (Raise AuthError) [Call a rq (Failure e)]
| runs_retry a c e res tr :
    a < retries → remote c rq = Failure e →
    LLM.is_rate (Py.lower e) = false → LLM.is_auth (Py.lower e) = false →
    runs remote rq retries (a + 1) (S c) res tr →
    runs remote rq retries a c res
      (Call a rq (Failure e) :: Sleep (2 * a) :: tr)
| runs_exhausted a c e :
    a = retries → remote c rq = Failure e →
    LLM.is_rate (Py.lower e) = false → LLM.is_auth (Py.lower e) = false →
    runs remote rq retries a c (Raise (ExhaustedRetries retries e))
      [Call a rq (Failure e)].

(** ** More of Python's strings *)

(** As [lower], [strip] is modelled on the ASCII characters: the white space
    it removes is the ASCII white space of [str.isspace]. *)

Module PyStr.

(** The newline and the double quote, as one-character strings. *)
Definition nl : string := String (ascii_of_nat 10) "".
Definition dq : string := String (ascii_of_nat 34) "".

(** [c.isspace()] for one ASCII character: tab to carriage return, the four
    separators and the space. *)
Definition is_space (c : ascii) : bool :=
  let n := nat_of_ascii c in
  (((9 <=? n) && (n <=? 13)) || ((28 <=? n) && (n <=? 32)))%nat.

(** [s.lstrip()], [s.rstrip()] and [s.strip()]. *)
Fixpoint lstrip (s : string) : string :=
  match s with
  | EmptyString => EmptyString
  | String c s' => if is_space c then lstrip s' else s
  end.

Fixpoint rstrip (s : string) : string :=
  match s with
  | EmptyString => EmptyString
  | String c s' =>
      let r := rstrip s' in
      if is_space c && String.eqb r "" then EmptyString else String c r
  end.

Definition strip (s : string) : string := rstrip (lstrip s).

(** [s.replace(old, new)] for a one-character [old]. *)
Fixpoint replace_char (old : ascii) (new s : string) : string :=
  match s with
  | EmptyString => EmptyString
  | String c s' =>
      if Ascii.eqb c old then new +:+ replace_char old new s'
      else String c (replace_char old new s')
  end.

(** [sep.join(l)]. *)
Fixpoint join (sep : string) (l : list string) : string :=
  match l with
  | [] => ""
  | [x] => x
  | x :: l' => x +:+ sep +:+ join sep l'
  end.

End PyStr.

(** ** The notebook front end *)

(** [re.sub] belongs to Python's library, not to the program: it is a
    parameter of everything that renders Markdown. A replacement is a
    template or a function of the matched text, [m.group(0)]. *)
Inductive ReFlags := NOFLAGS | MULTILINE | DOTALL.

Inductive Repl :=
| Template (s : string)
| OfMatch (f : string → string).

Definition ReSub := string → Repl → string → ReFlags → string.

(** What the front end does to the outside world: it shows the chat pane,
    whose only varying part is [all_msgs], and it calls the remote. *)
Inductive Effect :=
| Display (all_msgs : string)
| Net (ev : Event).

Module UI.

Import PyStr.

(** The state the handlers share: the global [conversation], the
    [chat_log] of rendered bubbles, the widgets' values and the files. *)
Record World := mkWorld {
  conversation : CM.t;
  chat_log : list string;
  user_input : string;
  send_disabled : bool;
  status_lbl : string;
  files : Files }.

(** [render_typing()]. *)
Definition render_typing : string :=
  "<div class=" +:+ dq +:+ "msg bot" +:+ dq +:+ ">" +:+ nl +:+
  "      <div class=" +:+ dq +:+ "avatar bot" +:+ dq +:+ ">🩺</div>" +:+
  nl +:+ "      <div class=" +:+ dq +:+ "bubble bot" +:+ dq +:+ ">" +:+
  nl +:+ "        <div class=" +:+ dq +:+ "typing" +:+ dq +:+
  "><div class=" +:+ dq +:+ "dot" +:+ dq +:+ "></div><div class=" +:+ dq +:+
  "dot" +:+ dq +:+ "></div><div class=" +:+ dq +:+ "dot" +:+ dq +:+
  "></div></div>" +:+ nl +:+ "      </div></div>".

(** [render_emergency()]. *)
Definition render_emergency : string :=
  "<div style=" +:+ dq +:+
  "background:#ff4444;color:white;padding:12px 16px;border-radius:10px;margin:4px 0;font-weight:bold;" +:+
  dq +:+ ">" +:+ nl +:+
  "      🚨 EMERGENCY DETECTED — CALL 911 NOW or GO TO YOUR NEAREST ER IMMEDIATELY. Do not wait." +:+
  nl +:+ "    </div>".

(** The [welcome] text of [build_chatbot_ui]. *)
Definition welcome : string :=
  "👋 **Hello! I'm MedAssist AI (powered by Gemini).**" +:+ nl +:+ nl +:+
  "I can help you with:" +:+ nl +:+
  "- Understanding symptoms and medical conditions" +:+ nl +:+
  "- Explaining medications and side effects" +:+ nl +:+
  "- General wellness and preventive care" +:+ nl +:+
  "- Guidance on when to seek professional help" +:+ nl +:+ nl +:+
  "⚠️ *I'm an AI assistant, not a doctor. Always consult a licensed healthcare professional for personal medical decisions.*" +:+
  nl +:+ nl +:+ "How can I help you today?".

(** [refresh_chat(extra_html)]. *)
Definition refresh_chat (chat_log : list string) (extra_html : string)
    : Effect :=
  let all_msgs := join nl chat_log +:+ extra_html in
  Display all_msgs.

(** The reply [on_send] records: the text of [chat], or the text built in
    its [except RuntimeError] branch. *)
Definition reply_of (res : Result) : string :=
  match res with
  | Return text => text
  | Raise e =>
      "⚠️ **Error:** " +:+ LLM.message e +:+ nl +:+ nl +:+
      "Please check your API key and try again."
  end.

(** The number in the status line of [on_send]. *)
Definition questions (conversation : CM.t) : nat :=
  length (List.filter (λ m, String.eqb (role m) "user")
            (CM.history conversation)).

(** [on_clear(b)]. *)
Definition on_clear (w : World) : World * list Effect :=
  ({| conversation := CM.clear (conversation w);
      chat_log := [];
      user_input := user_input w;
      send_disabled := send_disabled w;
      status_lbl := "🗑 Chat cleared.";
      files := files w |},
   [refresh_chat [] ""]).

(** [on_save(b)]; [now] is the clock read by [save]. *)
Definition on_save (now : string) (w : World) : World * list Effect :=
  let '(fname, fs) :=
    CM.save (conversation w) "medassist_session.json" now (files w) in
  ({| conversation := conversation w;
      chat_log := chat_log w;
      user_input := user_input w;
      send_disabled := send_disabled w;
      status_lbl := "💾 Saved → " +:+ fname;
      files := fs |},
   []).

(** The user typing into the text area. *)
Definition type_text (s : string) (w : World) : World :=
  {| conversation := conversation w;
     chat_log := chat_log w;
     user_input := s;
     send_disabled := send_disabled w;
     status_lbl := status_lbl w;
     files := files w |}.

Section rendering.
Variable re_sub : ReSub.

(** [md_to_html(text)]. *)
Definition md_to_html (text : string) : string :=
  let text := re_sub "^### (.+)$" (Template "<h4>\1</h4>") text MULTILINE in
  let text := re_sub "^## (.+)$" (Template "<h3>\1</h3>") text MULTILINE in
  let text := re_sub "^# (.+)$" (Template "<h2>\1</h2>") text MULTILINE in
  let text := re_sub "\*\*(.+?)\*\*" (Template "<strong>\1</strong>") text NOFLAGS in
  let text := re_sub "\*(.+?)\*" (Template "<em>\1</em>") text NOFLAGS in
  let text := re_sub "^\s*[-•]\s+(.+)$" (Template "<li>\1</li>") text MULTILINE in
  let text := re_sub "(<li>.*?</li>(\n|$))+"
                (OfMatch (λ group0, "<ul>" +:+ group0 +:+ "</ul>")) text DOTALL in
  let text := re_sub "\n{2,}" (Template "</p><p>") text NOFLAGS in
  let text := replace_char (ascii_of_nat 10) "<br>" text in
  "<p>" +:+ text +:+ "</p>".

(** [render_message(role, content)]; [ts] is the clock as ["%H:%M"]. *)
Definition render_message (ts role content : string) : string :=
  let cls := if String.eqb role "assistant" then "bot" else "user" in
  let icon := if String.eqb role "assistant" then "🩺" else "👤" in
  let body :=
    if String.eqb role "assistant" then md_to_html content
    else "<p>" +:+ content +:+ "</p>" in
  nl +:+ "    <div class=" +:+ dq +:+ "msg " +:+ cls +:+ dq +:+ ">" +:+
  nl +:+ "      <div class=" +:+ dq +:+ "avatar " +:+ cls +:+ dq +:+ ">" +:+
  icon +:+ "</div>" +:+ nl +:+ "      <div class=" +:+ dq +:+ "bubble " +:+
  cls +:+ dq +:+ ">" +:+ body +:+ "<div class=" +:+ dq +:+ "ts" +:+ dq +:+
  ">" +:+ ts +:+ "</div></div>" +:+ nl +:+ "    </div>".

(** [on_send(b)]: [remote] answers the calls of this send, [ts_user] and
    [ts_reply] are the clock when the two bubbles are rendered. The button
    and the status line are written twice; the state returned has the
    values the handler leaves when it runs to its end, which it does for a
    reply that has a text, as every [Response] here has. A reply without
    one makes the rendering of the bubble raise, after the two turns are
    stored and before the button is enabled again: nothing is stated here
    about the button after a send. *)
Definition on_send (remote : Remote) (ts_user ts_reply : string) (w : World)
    : World * list Effect :=
  let text := strip (user_input w) in
  if String.eqb text "" then (w, [])
  else
    let log :=
      if SafetyLayer.is_emergency text then chat_log w ++ [render_emergency]
      else chat_log w in
    let log := log ++ [render_message ts_user "user" text] in
    let conv := CM.add (conversation w) "user" text in
    let typing := refresh_chat log render_typing in
    let '(res, tr) := LLM.chat remote conv 3 in
    let reply := reply_of res in
    let conv := CM.add conv "assistant" reply in
    let log := log ++ [render_message ts_reply "assistant" reply] in
    ({| conversation := conv;
        chat_log := log;
        user_input := "";
        send_disabled := false;
        status_lbl :=
          "✅ Done · " +:+ Py.str_of_int (Z.of_nat (questions conv)) +:+
          " question(s) asked";
        files := files w |},
     typing :: map Net tr ++ [refresh_chat log ""]).

(** [build_chatbot_ui()], on the global [conversation] as it finds it. *)
Definition build_chatbot_ui (conversation : CM.t) (ts : string) (fs : Files)
    : World * list Effect :=
  let conv := CM.add conversation "assistant" welcome in
  let log := [render_message ts "assistant" welcome] in
  ({| conversation := conv;
      chat_log := log;
      user_input := "";
      send_disabled := false;
      status_lbl := "";
      files := fs |},
   [refresh_chat log ""]).

(** What the user can do to the notebook once it is launched. *)
Inductive Action :=
| Type_ (s : string)
| Send (remote : Remote) (ts_user ts_reply : string)
| Clear
| Save (now : string).

Definition act (w : World) (a : Action) : World * list Effect :=
  match a with
  | Type_ s => (type_text s w, [])
  | Send remote ts_user ts_reply => on_send remote ts_user ts_reply w
  | Clear => on_clear w
  | Save now => on_save now w
  end.

(** The notebook as launched ([conversation = ConversationManager()]), then
    any sequence of actions. *)
Definition launch (ts : string) (fs : Files) : World :=
  (build_chatbot_ui CM.default ts fs).1.

Definition session (ts : string) (fs : Files) (actions : list Action) : World :=
  foldl (λ w a, (act w a).1) (launch ts fs) actions.

End rendering.

End UI.

(** The remote events among the effects of a handler, in order. *)
Definition net_events (effs : list Effect) : list Event :=
  omap (λ ef, match ef with Net ev => Some ev | Display _ => None end) effs.

(** A text made of white space only. *)
Definition blank (s : string) : Prop :=
  Forall (λ c, PyStr.is_space c = true) (list_ascii_of_string s).

(** What holds of the store between two actions of a session. *)
Definition settled (w : UI.World) : Prop :=
  CM.max_turns (UI.conversation w) = 20 ∧
  (length (CM.history (UI.conversation w)) ≤ 40)%nat ∧
  Forall (λ m, internal_role (role m)) (CM.history (UI.conversation w)) ∧
  (CM.history (UI.conversation w) = [] ∨
   ∃ m, last (CM.history (UI.conversation w)) = Some m ∧
        role m = "assistant").

(** ** Reading a trace *)

Module Trace.

(** The seconds slept, in order. *)
Definition sleeps (tr : list Event) : list Z :=
  omap (λ ev, match ev with Sleep s => Some s | Call _ _ _ => None end) tr.

Definition total_sleep (tr : list Event) : Z := foldr Z.add 0 (sleeps tr).

(** The trace of a run that gets the outcomes [os] for the request [rq],
    numbering its attempts from [a]: every call but the last is followed by
    a sleep of twice its number. *)
Fixpoint schedule (rq : Request) (a : Z) (os : list Outcome) : list Event :=
  match os with
  | [] => []
  | [o] => [Call a rq o]
  | o :: os' => Call a rq o :: Sleep (2 * a) :: schedule rq (a + 1) os'
  end.

(** A call that failed with a message of neither permanent class. *)
Definition failed_transiently (o : Outcome) : Prop :=
  ∃ e, o = Failure e ∧ transient e.

End Trace.

(** * Properties *)

(** ** Strings *)

Section strings.

Lemma append_assoc (s1 s2 s3 : string) :
  (s1 +:+ s2) +:+ s3 = s1 +:+ (s2 +:+ s3).
Proof.
  induction s1 as [|c s1 IH]; [done|].
  change (String c ((s1 +:+ s2) +:+ s3) = String c (s1 +:+ s2 +:+ s3)).
  by rewrite IH.
Qed.

Lemma prefix_occurs (p s : string) :
  String.prefix p s = true ↔ ∃ post, s = p +:+ post.
Proof.
  revert s. induction p as [|c p IH]; intros [|d s]; simpl.
  - split; [by exists "" | done].
  - split; [by exists (String d s) | done].
  - split; [done | intros [post H]; discriminate H].
  - destruct (Ascii.ascii_dec c d) as [->|Hne].
    + rewrite IH. split; intros [post H]; exists post.
      * by rewrite H.
      * by injection H.
    + split; [done | intros [post H]; injection H; congruence].
Qed.

Lemma contains_occurs (needle hay : string) :
  Py.contains needle hay = true ↔ occurs_in needle hay.
Proof.
  unfold occurs_in. induction hay as [|c hay IH].
  - cbn [Py.contains]. rewrite orb_false_r, prefix_occurs. split.
    + intros [post H]. by exists "", post.
    + intros [[|d pre] [post H]]; [eauto | discriminate H].
  - cbn [Py.contains]. rewrite orb_true_iff, prefix_occurs, IH. split.
    + intros [[post H] | (pre & post & H)].
      * by exists "", post.
      * exists (String c pre), post. simpl. by rewrite H.
    + intros ([|d pre] & post & H).
      * left. by exists post.
      * right. exists pre, post. simpl in H. by injection H.
Qed.

Lemma any_spec {A} (f : A → bool) (l : list A) :
  Py.any f l = true ↔ ∃ x, x ∈ l ∧ f x = true.
Proof.
  unfold Py.any. rewrite existsb_exists.
  by setoid_rewrite list_elem_of_In.
Qed.

End strings.

(** ** Slices *)

Section slices.
Context {A : Type}.
Implicit Types l : list A.

Lemma slice_from_suffix k l : Py.slice_from k l `suffix_of` l.
Proof. apply suffix_drop. Qed.

(** [l[-k:]] for a positive [k] keeps the last [k] elements. *)
Lemma slice_from_neg k l :
  0 < k → Py.slice_from (- k) l = drop (length l - Z.to_nat k) l.
Proof.
  intros Hk. unfold Py.slice_from.
  destruct (Z.ltb_spec (- k) 0) as [_|?]; [|lia].
  f_equal. lia.
Qed.

(** [l[-0:]] is [l[0:]]: nothing is dropped. *)
Lemma slice_from_zero l : Py.slice_from (- 0) l = l.
Proof. unfold Py.slice_from. simpl. by rewrite Z.min_l by lia. Qed.

Lemma slice_to_minus_one l :
  Py.slice_to (-1) l = take (length l - 1) l.
Proof. unfold Py.slice_to. simpl. f_equal. lia. Qed.

Lemma slice_to_snoc l x : Py.slice_to (-1) (l ++ [x]) = l.
Proof.
  rewrite slice_to_minus_one, length_app. simpl.
  replace (length l + 1 - 1)%nat with (length l) by lia.
  by rewrite take_app_length.
Qed.

End slices.

(** ** The turn window *)

Section window.
Implicit Types self : CM.t.

Lemma add_max_turns self r c : CM.max_turns (CM.add self r c) = CM.max_turns self.
Proof. unfold CM.add. by case_match. Qed.

Lemma add_all_max_turns self turns :
  CM.max_turns (CM.add_all self turns) = CM.max_turns self.
Proof.
  revert self. induction turns as [|m turns IH]; intros self; [done|].
  simpl. by rewrite IH, add_max_turns.
Qed.

(** Whatever the bound, [add] keeps a suffix of what it was given. *)
Lemma add_suffix self r c :
  CM.history (CM.add self r c) `suffix_of` CM.history self ++ [mkTurn r c].
Proof. unfold CM.add. case_match; [apply slice_from_suffix | done]. Qed.

(** With a positive bound, [add] keeps the last [2 * max_turns] turns. *)
Lemma add_history_pos self r c :
  0 < CM.max_turns self →
  CM.history (CM.add self r c) =
    let h := CM.history self ++ [mkTurn r c] in
    drop (length h - Z.to_nat (CM.max_turns self * 2)) h.
Proof.
  intros Hm. unfold CM.add. cbv zeta.
  destruct (Z.gtb_spec (Z.of_nat (length (CM.history self ++ [mkTurn r c])))
              (CM.max_turns self * 2)) as [Hgt|Hle]; simpl.
  - apply slice_from_neg. lia.
  - replace (_ - _)%nat with 0%nat by lia. done.
Qed.

Lemma add_length_pos self r c :
  0 < CM.max_turns self →
  Z.of_nat (length (CM.history (CM.add self r c))) ≤ 2 * CM.max_turns self.
Proof.
  intros Hm. rewrite add_history_pos by done. cbv zeta.
  rewrite length_drop. lia.
Qed.

Lemma add_newest_pos self r c :
  0 < CM.max_turns self →
  last (CM.history (CM.add self r c)) = Some (mkTurn r c).
Proof.
  intros Hm. rewrite add_history_pos by done. cbv zeta.
  rewrite length_app, drop_app_le by (simpl; lia).
  apply last_snoc.
Qed.

Lemma add_all_snoc self turns m :
  CM.add_all self (turns ++ [m]) =
  CM.add (CM.add_all self turns) (role m) (content m).
Proof. unfold CM.add_all. by rewrite foldl_app. Qed.

Lemma add_all_suffix self turns :
  CM.history (CM.add_all self turns) `suffix_of` CM.history self ++ turns.
Proof.
  induction turns as [|m turns IH] using rev_ind.
  - by rewrite app_nil_r.
  - rewrite add_all_snoc. etrans; [apply add_suffix|].
    rewrite app_assoc. destruct m. by apply suffix_app.
Qed.

(** With a positive bound, a store within its bound holds, after any
    sequence of [add], exactly the last [2 * max_turns] turns. *)
Lemma add_all_history_pos self turns :
  0 < CM.max_turns self →
  Z.of_nat (length (CM.history self)) ≤ 2 * CM.max_turns self →
  CM.history (CM.add_all self turns) =
    let h := CM.history self ++ turns in
    drop (length h - Z.to_nat (CM.max_turns self * 2)) h.
Proof.
  intros Hm Hlen. cbv zeta.
  induction turns as [|m turns IH] using rev_ind.
  - rewrite app_nil_r. simpl.
    replace (_ - _)%nat with 0%nat by lia. done.
  - rewrite add_all_snoc, add_history_pos by by rewrite add_all_max_turns.
    cbv zeta. rewrite add_all_max_turns, IH. destruct m as [r c]. simpl.
    set (k := Z.to_nat (CM.max_turns self * 2)).
    set (h := CM.history self ++ turns).
    rewrite (app_assoc _ turns). fold h.
    rewrite !length_app, length_drop. simpl.
    destruct (decide (length h ≤ k)%nat) as [Hle|Hgt].
    + replace (length h - k)%nat with 0%nat by lia. simpl.
      f_equal. lia.
    + rewrite <- drop_app_le by lia.
      rewrite drop_drop. f_equal. lia.
Qed.

Lemma add_all_length_pos self turns :
  0 < CM.max_turns self →
  Z.of_nat (length (CM.history self)) ≤ 2 * CM.max_turns self →
  Z.of_nat (length (CM.history (CM.add_all self turns))) ≤ 2 * CM.max_turns self.
Proof.
  intros Hm Hlen. rewrite add_all_history_pos by done. cbv zeta.
  rewrite length_drop, length_app. lia.
Qed.

(** With the bound 0 nothing is ever dropped. *)
Lemma add_all_zero turns : CM.history (CM.add_all (CM.init 0) turns) = turns.
Proof.
  induction turns as [|m turns IH] using rev_ind; [done|].
  rewrite add_all_snoc. unfold CM.add. rewrite add_all_max_turns, IH.
  destruct m as [r c]. simpl CM.max_turns. simpl Z.mul.
  case_match; [apply (slice_from_zero (A:=Turn)) | done].
Qed.

Lemma last_drop_lt {A} (n : nat) (l : list A) :
  (n < length l)%nat → last (drop n l) = last l.
Proof.
  intros Hn. rewrite <- (take_drop n l) at 2. rewrite last_app.
  destruct (drop n l) as [|x k] eqn:E; [|by destruct (last (x :: k)) eqn:E'; [|apply last_None in E']].
  apply (f_equal length) in E. rewrite length_drop in E. simpl in E. lia.
Qed.

(** The window for a positive bound: after any sequence of [add] the store
    is within its bound, holds the last [2 * max_turns] of the turns it had
    and was given, in their order, and the newest turn is kept. *)
Lemma add_all_window_pos self turns :
  0 < CM.max_turns self →
  Z.of_nat (length (CM.history self)) ≤ 2 * CM.max_turns self →
  let h := CM.history self ++ turns in
  let s' := CM.add_all self turns in
  Z.of_nat (length (CM.history s')) ≤ 2 * CM.max_turns self ∧
  CM.history s' `suffix_of` h ∧
  CM.history s' = drop (length h - Z.to_nat (CM.max_turns self * 2)) h ∧
  (turns ≠ [] → last (CM.history s') = last turns).
Proof.
  intros Hm Hlen h s'. split_and!.
  - by apply add_all_length_pos.
  - apply add_all_suffix.
  - by apply add_all_history_pos.
  - intros Hne. subst s'. rewrite add_all_history_pos by done. cbv zeta. fold h.
    assert (0 < length turns)%nat by (destruct turns; [done | simpl; lia]).
    rewrite last_drop_lt by (subst h; rewrite length_app; lia).
    subst h. rewrite last_app. destruct (last turns) eqn:E; [done|].
    by apply last_None in E.
Qed.

End window.

(** ** The two views of the store *)

Section views.
Implicit Types self : CM.t.

Lemma to_gemini_role m : wire_role (g_role (CM.to_gemini m)).
Proof. unfold wire_role, CM.to_gemini. simpl. case_match; auto. Qed.

Lemma to_gemini_history_snoc mt h m :
  CM.to_gemini_history (CM.mk mt (h ++ [m])) = map CM.to_gemini h.
Proof. unfold CM.to_gemini_history. simpl. by rewrite slice_to_snoc. Qed.

(** The backward scan steps over the turns that are not the user's. *)
Lemma first_user_skip (l1 l2 : list Turn) :
  Forall (λ x, role x ≠ "user") l1 →
  CM.first_user (l1 ++ l2) = CM.first_user l2.
Proof.
  induction 1 as [|x l1 Hx _ IH]; [done|]. simpl.
  apply String.eqb_neq in Hx. by rewrite Hx.
Qed.

Lemma latest_user_message_found self pre m post :
  CM.history self = pre ++ m :: post →
  role m = "user" → Forall (λ x, role x ≠ "user") post →
  CM.latest_user_message self = content m.
Proof.
  intros Hh Hm Hpost. unfold CM.latest_user_message.
  rewrite Hh, reverse_app, reverse_cons, <- app_assoc.
  rewrite first_user_skip by by apply Forall_reverse.
  simpl. by rewrite Hm.
Qed.

Lemma latest_user_message_none self :
  Forall (λ x, role x ≠ "user") (CM.history self) →
  CM.latest_user_message self = "".
Proof.
  intros Hh. unfold CM.latest_user_message.
  rewrite <- (app_nil_r (reverse _)).
  by rewrite first_user_skip by by apply Forall_reverse.
Qed.

(** The methods that do not assign to [self.history] leave the store as
    it was. *)
Lemma run_reads self ms :
  Forall (λ m, mutates m = false) ms → run self ms = self.
Proof.
  induction 1 as [|m ms Hm _ IH]; [done|].
  unfold run in *. simpl. by destruct m.
Qed.

(** When the last turn is the user's, it is the live prompt and the
    history view is every other turn. *)
Lemma views_last_user mt h m :
  role m = "user" →
  CM.latest_user_message (CM.mk mt (h ++ [m])) = content m ∧
  CM.to_gemini_history (CM.mk mt (h ++ [m])) = map CM.to_gemini h.
Proof.
  intros Hm. split; [|apply to_gemini_history_snoc].
  by apply (latest_user_message_found _ h m []).
Qed.

(** A user turn just added is the live prompt, and stays it while fewer
    than [2 * max_turns] turns of other roles are added after it. *)
Lemma latest_user_message_in_window self c turns :
  0 < CM.max_turns self →
  Forall (λ x, role x ≠ "user") turns →
  Z.of_nat (length turns) < 2 * CM.max_turns self →
  CM.latest_user_message (CM.add_all (CM.add self "user" c) turns) = c.
Proof.
  intros Hm Hturns Hlen.
  pose proof (add_newest_pos self "user" c Hm) as [pre Hpre]%last_Some.
  pose proof (add_length_pos self "user" c Hm) as Hbound.
  pose proof (add_all_history_pos (CM.add self "user" c) turns) as Hh.
  rewrite add_max_turns in Hh. specialize (Hh Hm Hbound). cbv zeta in Hh.
  rewrite Hpre in Hh, Hbound. rewrite !length_app in Hh. simpl in Hh.
  rewrite length_app in Hbound. simpl in Hbound.
  rewrite <- !app_assoc, drop_app_le in Hh by lia.
  by apply (latest_user_message_found _ _ (mkTurn "user" c) turns Hh).
Qed.

(** In the flow of the program [chat] follows [add("user", text)]: there,
    with a positive bound, the turn the history view leaves out is the live
    prompt. *)
Lemma views_after_user_add self c :
  0 < CM.max_turns self →
  let s' := CM.add self "user" c in
  CM.latest_user_message s' = c ∧
  ∃ h, CM.history s' = h ++ [mkTurn "user" c] ∧
       CM.to_gemini_history s' = map CM.to_gemini h.
Proof.
  intros Hm s'.
  pose proof (add_newest_pos self "user" c Hm) as [h Hh]%last_Some.
  fold s' in Hh. destruct s' as [mt hs]. simpl in Hh. subst hs.
  destruct (views_last_user mt h (mkTurn "user" c) eq_refl) as [Hl Hv].
  split; [exact Hl|]. exists h. by split.
Qed.

End views.

(** ** The conversation store: the claims *)

(** C1. The store is meant to hold at most [2 * max_turns] turns after every
    [add] ("Prune oldest pairs beyond max_turns"). With [max_turns = 0] the
    slice [history[-0:]] is the whole list: after one [add] the store holds
    one turn, more than [2 * 0], and after three it holds all three. *)
Theorem add_zero_bound_prunes_nothing :
  let s1 := CM.add (CM.init 0) "user" "a" in
  let s3 := CM.add_all (CM.init 0)
              [mkTurn "user" "a"; mkTurn "assistant" "b"; mkTurn "user" "c"] in
  CM.history s1 = [mkTurn "user" "a"] ∧
  ¬ Z.of_nat (length (CM.history s1)) ≤ 2 * CM.max_turns s1 ∧
  CM.history s3 = [mkTurn "user" "a"; mkTurn "assistant" "b"; mkTurn "user" "c"] ∧
  ¬ Z.of_nat (length (CM.history s3)) ≤ 2 * CM.max_turns s3.
Proof. repeat split; try reflexivity; simpl; lia. Qed.

(** C2. The history view is meant to leave out the live prompt, "the latest
    user message". On the store [user:A, assistant:B] it leaves out the
    assistant's turn instead, and the live prompt [A] is part of the view. *)
Theorem history_view_omits_last_turn :
  let s := CM.add (CM.add CM.default "user" "A") "assistant" "B" in
  CM.history s = [mkTurn "user" "A"; mkTurn "assistant" "B"] ∧
  CM.latest_user_message s = "A" ∧
  CM.to_gemini_history s = [mkGeminiMsg "user" [mkPart "A"]].
Proof. repeat split. Qed.

(** C3. For a non-empty store the history view has [len(store) - 1] items;
    item [i] is stored turn [i] with its content wrapped as the single part
    and its role relabelled, [assistant] to [model] and [user] to [user];
    every role of the view is [user] or [model]. *)
Theorem to_gemini_history_shape (self : CM.t) (Hne : CM.history self ≠ []) :
  length (CM.to_gemini_history self) = (length (CM.history self) - 1)%nat ∧
  (∀ i m, (i < length (CM.history self) - 1)%nat →
     CM.history self !! i = Some m →
     ∃ r, CM.to_gemini_history self !! i =
            Some (mkGeminiMsg r [mkPart (content m)]) ∧
          (role m = "assistant" → r = "model") ∧
          (role m = "user" → r = "user")) ∧
  Forall (λ g, wire_role (g_role g)) (CM.to_gemini_history self).
Proof.
  unfold CM.to_gemini_history. rewrite slice_to_minus_one. split_and!.
  - rewrite length_map, length_take. lia.
  - intros i m Hi Hm. eexists. split.
    + rewrite list_lookup_fmap, lookup_take_lt, Hm by done. reflexivity.
    + simpl. split; intros ->; reflexivity.
  - apply Forall_fmap, Forall_true. intros m. apply to_gemini_role.
Qed.

Lemma to_gemini_history_shape_witness :
  let s := CM.add (CM.add (CM.add CM.default "user" "A") "assistant" "B")
             "user" "C" in
  CM.to_gemini_history s =
    [mkGeminiMsg "user" [mkPart "A"]; mkGeminiMsg "model" [mkPart "B"]] ∧
  length (CM.to_gemini_history s) = 2%nat.
Proof.
  intros s. split; [reflexivity|].
  assert (Hne : CM.history s ≠ []) by (subst s; simpl; discriminate).
  exact (proj1 (to_gemini_history_shape s Hne)).
Defined.

(** C4, as the code has it. [latest_user_message] returns the content of
    the last stored turn whose role is [user], whatever is stored after it,
    and the empty string when no stored turn is the user's. A user's turn
    just appended, on a store with a positive bound, is that turn while
    fewer than [2 * max_turns] turns of other roles have been appended after
    it; the window drops it after that. The method leaves the store as it
    is, so a later call separated from it only by calls that do not change
    the history returns the same value. *)
Theorem latest_user_message_spec (self : CM.t) :
  (∀ pre m post, CM.history self = pre ++ m :: post →
     role m = "user" → Forall (λ x, role x ≠ "user") post →
     CM.latest_user_message self = content m) ∧
  (Forall (λ x, role x ≠ "user") (CM.history self) →
     CM.latest_user_message self = "") ∧
  (∀ c turns,
     0 < CM.max_turns self →
     Forall (λ x, role x ≠ "user") turns →
     Z.of_nat (length turns) < 2 * CM.max_turns self →
     CM.latest_user_message (CM.add_all (CM.add self "user" c) turns) = c) ∧
  (∀ ms, Forall (λ m, mutates m = false) ms →
     (call (run (call self MLatest).2 ms) MLatest).1 = (call self MLatest).1).
Proof.
  split_and!.
  - apply latest_user_message_found.
  - apply latest_user_message_none.
  - intros c turns. apply latest_user_message_in_window.
  - intros ms Hms. simpl. by rewrite run_reads.
Qed.

Lemma latest_user_message_spec_witness :
  let s0 := CM.add (CM.add CM.default "user" "A") "assistant" "B" in
  let s := CM.add s0 "user" "C" in
  CM.latest_user_message s = "C" ∧
  CM.latest_user_message (CM.add s "assistant" "D") = "C" ∧
  CM.latest_user_message (CM.add CM.default "assistant" "hello") = "" ∧
  CM.latest_user_message
    (CM.add_all (CM.add s0 "user" "C")
       [mkTurn "assistant" "D"; mkTurn "assistant" "E"]) = "C" ∧
  (call (run (call s MLatest).2 [MHistory; MLatest]) MLatest).1 = ALatest "C".
Proof.
  intros s0 s. split_and!.
  - apply (proj1 (latest_user_message_spec s)
             [mkTurn "user" "A"; mkTurn "assistant" "B"] (mkTurn "user" "C") []);
      [reflexivity | reflexivity | constructor].
  - apply (proj1 (latest_user_message_spec (CM.add s "assistant" "D"))
             [mkTurn "user" "A"; mkTurn "assistant" "B"] (mkTurn "user" "C")
             [mkTurn "assistant" "D"]);
      [reflexivity | reflexivity | repeat constructor; discriminate].
  - apply (proj1 (proj2 (latest_user_message_spec _))).
    repeat constructor; discriminate.
  - apply (proj1 (proj2 (proj2 (latest_user_message_spec s0))) "C"
             [mkTurn "assistant" "D"; mkTurn "assistant" "E"]);
      [simpl; lia | repeat constructor; discriminate | simpl; lia].
  - apply (proj2 (proj2 (proj2 (latest_user_message_spec s))) [MHistory; MLatest]).
    repeat constructor.
Defined.

(** C4, as the claim has it, fails: on the default store, of bound 20, a
    user's turn followed by 40 appended assistant's turns has left the
    window, and [latest_user_message] returns the empty string, not the
    content of the most recently appended user's turn. *)
Lemma latest_user_message_evicted :
  ¬ (∀ (self : CM.t) (c : string) (turns : list Turn),
       Forall (λ x, role x = "assistant") turns →
       CM.latest_user_message (CM.add_all (CM.add self "user" c) turns) = c).
Proof.
  intros Hclaim.
  specialize (Hclaim CM.default "C" (replicate 40 (mkTurn "assistant" "B"))).
  assert (Hall : Forall (λ x, role x = "assistant")
                   (replicate 40 (mkTurn "assistant" "B"))).
  { apply Forall_replicate. reflexivity. }
  specialize (Hclaim Hall). vm_compute in Hclaim. discriminate Hclaim.
Qed.

(** ** The retry loop *)

Section retry_loop.
Variables (remote : Remote) (rq : Request) (retries : Z).

Lemma is_rate_spec e : LLM.is_rate (Py.lower e) = true ↔ rate_like e.
Proof.
  unfold LLM.is_rate, rate_like.
  by rewrite orb_true_iff, !contains_occurs.
Qed.

Lemma is_auth_spec e : LLM.is_auth (Py.lower e) = true ↔ auth_like e.
Proof.
  unfold LLM.is_auth, auth_like.
  rewrite !orb_true_iff, !contains_occurs. tauto.
Qed.

Lemma transient_spec e :
  transient e ↔
  LLM.is_rate (Py.lower e) = false ∧ LLM.is_auth (Py.lower e) = false.
Proof.
  unfold transient. rewrite <- is_rate_spec, <- is_auth_spec.
  destruct (LLM.is_rate _), (LLM.is_auth _); intuition congruence.
Qed.

(** The loop function computes a run of the relation. *)
Lemma chat_loop_runs n : ∀ a c,
  n = Z.to_nat (retries + 1 - a) →
  runs remote rq retries a c
    (LLM.chat_loop remote rq retries (seqZ a (retries + 1 - a)) c).1
    (LLM.chat_loop remote rq retries (seqZ a (retries + 1 - a)) c).2.
Proof.
  induction n as [|n IH]; intros a c Hn.
  - rewrite seqZ_nil by lia. apply runs_over. lia.
  - rewrite seqZ_cons by lia. cbn [LLM.chat_loop].
    destruct (remote c rq) as [text|e] eqn:Hr; [apply runs_response; [lia|done]|].
    destruct (LLM.is_rate (Py.lower e)) eqn:Hrate; [apply runs_rate; [lia|done..]|].
    destruct (LLM.is_auth (Py.lower e)) eqn:Hauth; [apply runs_auth; [lia|done..]|].
    destruct (Z.ltb_spec a retries) as [Hlt|Hge].
    + replace (Z.pred (retries + 1 - a)) with (retries + 1 - (a + 1)) by lia.
      replace (Z.succ a) with (a + 1) by lia.
      specialize (IH (a + 1) (S c) ltac:(lia)).
      destruct (LLM.chat_loop _ _ _ _ _) as [r tr]. by apply runs_retry.
    + apply runs_exhausted; [lia|done..].
Qed.

Lemma runs_calls_length a c res tr :
  runs remote rq retries a c res tr →
  (length (LLM.calls tr) ≤ Z.to_nat (retries + 1 - a))%nat.
Proof. induction 1; simpl in *; lia. Qed.

(** The calls of a run are the answers of the remote, in order. *)
Lemma runs_calls_remote a c res tr :
  runs remote rq retries a c res tr →
  LLM.calls tr = map (λ i, remote i rq) (seq c (length (LLM.calls tr))).
Proof. induction 1; simpl in *; congruence. Qed.

(** From any of its calls on, a run is the run entered at that call. *)
Lemma runs_at a c res tr : runs remote rq retries a c res tr →
  ∀ pre a' rq' o post, tr = pre ++ Call a' rq' o :: post →
  a' = a + Z.of_nat (length (LLM.calls pre)) ∧
  runs remote rq retries a' (c + length (LLM.calls pre)) res
    (Call a' rq' o :: post).
Proof.
  induction 1 as [a c ?|a c text ? Hr|a c e ? Hr ?|a c e ? Hr ? ?
                 |a c e res tr ? Hr ? ? Hruns IH|a c e ? Hr ? ?];
    intros pre a' rq' o post Htr.
  - by destruct pre.
  - destruct pre as [|? [|]]; simplify_eq/=.
    rewrite Z.add_0_r, Nat.add_0_r. split; [done|]. by apply runs_response.
  - destruct pre as [|? [|]]; simplify_eq/=.
    rewrite Z.add_0_r, Nat.add_0_r. split; [done|]. by apply runs_rate.
  - destruct pre as [|? [|]]; simplify_eq/=.
    rewrite Z.add_0_r, Nat.add_0_r. split; [done|]. by apply runs_auth.
  - destruct pre as [|? [|? pre]]; simplify_eq/=.
    + rewrite Z.add_0_r, Nat.add_0_r. split; [done|]. by apply runs_retry.
    + destruct (IH pre a' rq' o post eq_refl) as [-> Hsub].
      split; [lia|]. by rewrite <- Nat.add_succ_comm.
  - destruct pre as [|? [|]]; simplify_eq/=.
    rewrite Z.add_0_r, Nat.add_0_r. split; [done|]. by apply runs_exhausted.
Qed.

(** A run entered with attempts left starts with a call. *)
Lemma runs_head a c res tr :
  runs remote rq retries a c res tr → a ≤ retries →
  ∃ o tr', tr = Call a rq o :: tr'.
Proof. destruct 1; intros; try lia; eauto. Qed.

(** What a run that starts with a given call looks like. *)
Lemma runs_call_inv a c res a' rq' o post :
  runs remote rq retries a c res (Call a' rq' o :: post) →
  a' = a ∧ rq' = rq ∧ o = remote c rq ∧ a ≤ retries ∧
  match o with
  | Response text => res = Return text ∧ post = []
  | Failure e =>
      if LLM.is_rate (Py.lower e) then res = Raise RateLimited ∧ post = []
      else if LLM.is_auth (Py.lower e) then res = Raise AuthError ∧ post = []
      else (a < retries ∧
            ∃ tr, post = Sleep (2 * a) :: tr ∧
                  runs remote rq retries (a + 1) (S c) res tr)
           ∨ (a = retries ∧ res = Raise (ExhaustedRetries retries e) ∧ post = [])
  end.
Proof.
  inversion 1 as [|? ? ? ? Hr|? ? ? ? Hr Hrate|? ? ? ? Hr Hrate Hauth
                 |? ? ? ? ? ? Hr Hrate Hauth|? ? ? ? Hr Hrate Hauth]; subst;
    rewrite ?Hrate, ?Hauth; split_and!; try done; try lia; eauto.
Qed.

(** The first call that succeeds, after transient failures only, ends the
    run with its text. *)
Lemma runs_first_success k : ∀ a c res tr text,
  runs remote rq retries a c res tr →
  a + Z.of_nat k ≤ retries →
  remote (c + k)%nat rq = Response text →
  (∀ i, (i < k)%nat → ∃ e, remote (c + i)%nat rq = Failure e ∧ transient e) →
  res = Return text ∧ length (LLM.calls tr) = S k.
Proof.
  induction k as [|k IH]; intros a c res tr text Hruns Hk Hok Hfail.
  - rewrite Nat.add_0_r in Hok.
    inversion Hruns; subst; try lia; try congruence.
    split; [congruence | done].
  - destruct (Hfail 0%nat ltac:(lia)) as (e & He & [Hrate Hauth]%transient_spec).
    rewrite Nat.add_0_r in He.
    inversion Hruns as [| | | |? ? e' ? tr' ? He' ? ? Hsub|]; subst;
      try lia; try congruence.
    destruct (IH (a + 1) (S c) res tr' text Hsub) as [-> Hlen].
    + lia.
    + by rewrite Nat.add_succ_comm.
    + intros i Hi. rewrite Nat.add_succ_comm. apply Hfail. lia.
    + split; [done|]. simpl. by rewrite Hlen.
Qed.

End retry_loop.

(** ** The gateway: the claims *)

Section gateway.
Variables (remote : Remote) (conversation : CM.t) (retries : Z).

Let rq : Request := LLM.request conversation.

Lemma chat_runs res tr :
  LLM.chat remote conversation retries = (res, tr) →
  runs remote rq retries 1 0 res tr.
Proof.
  intros Hchat.
  pose proof (chat_loop_runs remote rq retries _ 1 0%nat eq_refl) as Hruns.
  unfold LLM.chat, LLM.range in Hchat. fold rq in Hchat.
  by rewrite Hchat in Hruns.
Qed.

(** Any call of the trace: its attempt number, its request, and the run
    that starts there. *)
Lemma chat_at res tr pre a rq' o post :
  LLM.chat remote conversation retries = (res, tr) →
  tr = pre ++ Call a rq' o :: post →
  a = Z.of_nat (S (length (LLM.calls pre))) ∧
  runs remote rq retries a (length (LLM.calls pre)) res (Call a rq' o :: post).
Proof.
  intros Hchat%chat_runs Htr.
  destruct (runs_at _ _ _ _ _ _ _ Hchat _ _ _ _ _ Htr) as [-> Hsub].
  split; [lia | done].
Qed.

Lemma chat_calls_length res tr :
  LLM.chat remote conversation retries = (res, tr) →
  (length (LLM.calls tr) ≤ Z.to_nat retries)%nat.
Proof.
  intros Hchat%chat_runs. apply runs_calls_length in Hchat.
  by replace (retries + 1 - 1) with retries in Hchat by lia.
Qed.

(** How [chat] goes on after a failed call, by the class of its message. *)
Lemma chat_after_failure res tr pre a rq' e post :
  LLM.chat remote conversation retries = (res, tr) →
  tr = pre ++ Call a rq' (Failure e) :: post →
  a = Z.of_nat (S (length (LLM.calls pre))) ∧ rq' = rq ∧ a ≤ retries ∧
  (rate_like e → res = Raise RateLimited ∧ post = []) ∧
  (¬ rate_like e → auth_like e → res = Raise AuthError ∧ post = []) ∧
  (transient e → a < retries →
     ∃ o post', post = Sleep (2 * a) :: Call (a + 1) rq o :: post') ∧
  (transient e → a = retries →
     res = Raise (ExhaustedRetries retries e) ∧ post = []).
Proof.
  intros Hchat Htr.
  destruct (chat_at _ _ _ _ _ _ _ Hchat Htr) as [Ha Hsub].
  apply runs_call_inv in Hsub as (_ & -> & _ & Hle & Hcase).
  split_and!; try done.
  - intros Hrate%is_rate_spec. by rewrite Hrate in Hcase.
  - intros Hrate Hauth%is_auth_spec.
    destruct (LLM.is_rate (Py.lower e)) eqn:E; [by apply is_rate_spec in E|].
    by rewrite Hauth in Hcase.
  - intros [Hrate Hauth]%transient_spec Hlt. rewrite Hrate, Hauth in Hcase.
    destruct Hcase as [(_ & tr' & -> & Hnext)|[? _]]; [|lia].
    apply runs_head in Hnext as (o & post' & ->); [eauto | lia].
  - intros [Hrate Hauth]%transient_spec Heq. rewrite Hrate, Hauth in Hcase.
    destruct Hcase as [[? _]|(_ & ? & ?)]; [lia | done].
Qed.

End gateway.

(** C5. [chat] makes at most [retries] remote calls, and they are the
    answers of the remote in order; a call that succeeds is the last thing
    [chat] does, and its text is what [chat] returns; so the first success,
    reached through transient failures only, is returned after exactly that
    many calls. In particular two transient failures and then a success,
    with [retries = 3], give the successful text after exactly 3 calls. *)
Theorem chat_at_most_retries_first_success
    (remote : Remote) (conversation : CM.t) (retries : Z)
    (res : Result) (tr : list Event)
    (Hchat : LLM.chat remote conversation retries = (res, tr)) :
  let rq := LLM.request conversation in
  (length (LLM.calls tr) ≤ Z.to_nat retries)%nat ∧
  LLM.calls tr = map (λ i, remote i rq) (seq 0 (length (LLM.calls tr))) ∧
  (∀ pre a rq' text post,
     tr = pre ++ Call a rq' (Response text) :: post →
     res = Return text ∧ post = []) ∧
  (∀ k text,
     (k < Z.to_nat retries)%nat → remote k rq = Response text →
     (∀ i, (i < k)%nat → ∃ e, remote i rq = Failure e ∧ transient e) →
     res = Return text ∧ length (LLM.calls tr) = S k) ∧
  (∀ e1 e2 text,
     retries = 3 →
     remote 0%nat rq = Failure e1 → transient e1 →
     remote 1%nat rq = Failure e2 → transient e2 →
     remote 2%nat rq = Response text →
     res = Return text ∧ length (LLM.calls tr) = 3%nat).
Proof.
  intros rq.
  pose proof (chat_runs _ _ _ _ _ Hchat) as Hruns. fold rq in Hruns.
  assert (Hfirst : ∀ k text,
     (k < Z.to_nat retries)%nat → remote k rq = Response text →
     (∀ i, (i < k)%nat → ∃ e, remote i rq = Failure e ∧ transient e) →
     res = Return text ∧ length (LLM.calls tr) = S k).
  { intros k text Hk Hok Hfail.
    apply (runs_first_success remote rq retries k 1 0%nat res tr text);
      [done | lia | done | done]. }
  split_and!.
  - by eapply chat_calls_length.
  - by eapply runs_calls_remote.
  - intros pre a rq' text post Htr.
    destruct (chat_at _ _ _ _ _ _ _ _ _ _ Hchat Htr) as [_ Hsub].
    by apply runs_call_inv in Hsub as (_ & _ & _ & _ & ?).
  - exact Hfirst.
  - intros e1 e2 text -> H1 Ht1 H2 Ht2 H3.
    apply (Hfirst 2%nat text); [lia | done |].
    intros [|[|i]] Hi; [eauto | eauto | lia].
Qed.

Lemma chat_at_most_retries_first_success_witness :
  let remote := LLM.scripted
    [Failure "Connection timed out"; Failure "503 Service Unavailable";
     Response "Drink water."] in
  let conversation := CM.add CM.default "user" "I have a mild headache" in
  ∃ tr,
    LLM.chat remote conversation 3 = (Return "Drink water.", tr) ∧
    (length (LLM.calls tr) ≤ 3)%nat ∧ length (LLM.calls tr) = 3%nat.
Proof.
  intros remote conversation. eexists. split; [reflexivity|].
  pose proof (chat_at_most_retries_first_success remote conversation 3 _ _
                eq_refl) as (Hle & _ & _ & _ & Hthree).
  split; [exact Hle|].
  apply (Hthree "Connection timed out" "503 Service Unavailable"
           "Drink water."); try reflexivity;
    apply transient_spec; split; reflexivity.
Defined.

(** C6. A failed call whose message contains, whatever the case of its
    letters, "quota" or "rate" is the last thing [chat] does, and [chat]
    raises the rate-limit error; one whose message contains "api key",
    "authentication" or "invalid", and neither "quota" nor "rate", is the
    last thing [chat] does, and [chat] raises the authentication error. When
    that is the first call, [chat] has made exactly one call. *)
Theorem chat_permanent_errors
    (remote : Remote) (conversation : CM.t) (retries : Z)
    (res : Result) (tr : list Event)
    (Hchat : LLM.chat remote conversation retries = (res, tr)) :
  (∀ pre a rq e post,
     tr = pre ++ Call a rq (Failure e) :: post → rate_like e →
     res = Raise RateLimited ∧ post = []) ∧
  (∀ pre a rq e post,
     tr = pre ++ Call a rq (Failure e) :: post →
     auth_like e → ¬ rate_like e →
     res = Raise AuthError ∧ post = []) ∧
  (∀ e, 0 < retries →
     remote 0%nat (LLM.request conversation) = Failure e →
     auth_like e → ¬ rate_like e →
     res = Raise AuthError ∧
     tr = [Call 1 (LLM.request conversation) (Failure e)]).
Proof.
  split_and!.
  - intros pre a rq e post Htr Hrate.
    by apply (chat_after_failure _ _ _ _ _ _ _ _ _ _ Hchat Htr).
  - intros pre a rq e post Htr Hauth Hrate.
    by apply (chat_after_failure _ _ _ _ _ _ _ _ _ _ Hchat Htr).
  - intros e Hpos Hr Hauth Hrate.
    pose proof (chat_runs _ _ _ _ _ Hchat) as Hruns.
    destruct (runs_head _ _ _ _ _ _ _ Hruns) as (o & tr' & ->); [lia|].
    pose proof (runs_call_inv _ _ _ _ _ _ _ _ _ _ Hruns) as (_ & _ & Ho & _).
    rewrite Hr in Ho. subst o.
    destruct (chat_after_failure _ _ _ _ _ [] _ _ _ _ Hchat eq_refl)
      as (_ & _ & _ & _ & Hcase & _).
    by destruct (Hcase Hrate Hauth) as [-> ->].
Qed.

Lemma chat_permanent_errors_witness :
  let conversation := CM.add CM.default "user" "hello" in
  let rq := LLM.request conversation in
  let bad_key := LLM.scripted [Failure "400 Invalid API key provided"] in
  let quota := LLM.scripted [Failure "reset by peer"; Failure "Quota exceeded"] in
  ((LLM.chat bad_key conversation 3).1 = Raise AuthError ∧
   (LLM.chat bad_key conversation 3).2 =
     [Call 1 rq (Failure "400 Invalid API key provided")]) ∧
  ((LLM.chat quota conversation 3).1 = Raise RateLimited ∧
   drop 3 (LLM.chat quota conversation 3).2 = []).
Proof.
  intros conversation rq bad_key quota.
  assert (Hauth : auth_like "400 Invalid API key provided").
  { apply is_auth_spec. reflexivity. }
  assert (Hnrate : ¬ rate_like "400 Invalid API key provided").
  { intros H%is_rate_spec. discriminate H. }
  assert (Hrate : rate_like "Quota exceeded").
  { apply is_rate_spec. reflexivity. }
  split.
  - apply (proj2 (proj2 (chat_permanent_errors bad_key conversation 3 _ _
                           eq_refl)) "400 Invalid API key provided");
      [lia | reflexivity | exact Hauth | exact Hnrate].
  - apply (proj1 (chat_permanent_errors quota conversation 3 _ _ eq_refl)
             [Call 1 rq (Failure "reset by peer"); Sleep 2] 2 rq
             "Quota exceeded");
      [reflexivity | exact Hrate].
Defined.

(** C7. A failed call whose message is in neither permanent class is a
    transient failure of attempt [a], the number of calls made so far. While
    [a < retries], [chat] then sleeps [2 * a] and makes attempt [a + 1]; when
    [a = retries] the call is the last thing [chat] does, and [chat] raises
    the exhausted-retries error, whose text ends with the message of that
    last failure. *)
Theorem chat_transient_errors
    (remote : Remote) (conversation : CM.t) (retries : Z)
    (res : Result) (tr pre : list Event) (a : Z) (rq : Request) (e : string)
    (post : list Event)
    (Hchat : LLM.chat remote conversation retries = (res, tr))
    (Htr : tr = pre ++ Call a rq (Failure e) :: post)
    (He : transient e) :
  a = Z.of_nat (S (length (LLM.calls pre))) ∧
  rq = LLM.request conversation ∧
  (a < retries ∨ a = retries) ∧
  (a < retries →
     ∃ o post', post = Sleep (2 * a) :: Call (a + 1) rq o :: post') ∧
  (a = retries →
     post = [] ∧ res = Raise (ExhaustedRetries retries e) ∧
     ∃ head, LLM.message (ExhaustedRetries retries e) = head +:+ e).
Proof.
  destruct (chat_after_failure _ _ _ _ _ _ _ _ _ _ Hchat Htr)
    as (Ha & Hrq & Hle & _ & _ & Hretry & Hlast).
  split_and!; try done.
  - lia.
  - intros Hlt. destruct (Hretry He Hlt) as (o & post' & ->).
    rewrite Hrq. eauto.
  - intros Heq. destruct (Hlast He Heq) as [-> ->]. split_and!; try done.
    exists ("❌ API error after " +:+ Py.str_of_int retries +:+ " attempts: ").
    unfold LLM.message. by rewrite !append_assoc.
Qed.

Lemma chat_transient_errors_witness :
  let conversation := CM.add CM.default "user" "hello" in
  let rq := LLM.request conversation in
  let remote := LLM.scripted [Failure "reset by peer"; Failure "HTTP 502"] in
  LLM.chat remote conversation 2 =
    (Raise (ExhaustedRetries 2 "HTTP 502"),
     [Call 1 rq (Failure "reset by peer"); Sleep 2;
      Call 2 rq (Failure "HTTP 502")]) ∧
  (∃ o post', [Sleep 2; Call 2 rq (Failure "HTTP 502")] =
                Sleep (2 * 1) :: Call (1 + 1) rq o :: post') ∧
  LLM.message (ExhaustedRetries 2 "HTTP 502") =
    "❌ API error after 2 attempts: HTTP 502".
Proof.
  intros conversation rq remote.
  assert (H1 : transient "reset by peer").
  { apply transient_spec. split; reflexivity. }
  split; [reflexivity|]. split; [|reflexivity].
  apply (chat_transient_errors remote conversation 2 _ _ [] 1 rq
           "reset by peer" _ eq_refl eq_refl H1).
  lia.
Defined.

(** C10. A failed call whose message contains both a rate keyword and an
    authentication keyword makes [chat] raise the rate-limit error, not the
    authentication error: the test for "quota" and "rate" comes first. *)
Theorem chat_rate_before_auth
    (remote : Remote) (conversation : CM.t) (retries : Z)
    (res : Result) (tr pre : list Event) (a : Z) (rq : Request) (e : string)
    (post : list Event)
    (Hchat : LLM.chat remote conversation retries = (res, tr))
    (Htr : tr = pre ++ Call a rq (Failure e) :: post)
    (Hrate : rate_like e) (Hauth : auth_like e) :
  res = Raise RateLimited ∧ res ≠ Raise AuthError ∧ post = [].
Proof.
  destruct (chat_after_failure _ _ _ _ _ _ _ _ _ _ Hchat Htr)
    as (_ & _ & _ & Hcase & _).
  destruct (Hcase Hrate) as [-> ->]. done.
Qed.

Lemma chat_rate_before_auth_witness :
  let conversation := CM.add CM.default "user" "hello" in
  let remote :=
    LLM.scripted [Failure "Invalid request: rate limit exceeded for API key"] in
  (LLM.chat remote conversation 3).1 = Raise RateLimited ∧
  (LLM.chat remote conversation 3).1 ≠ Raise AuthError ∧
  drop 1 (LLM.chat remote conversation 3).2 = [].
Proof.
  intros conversation remote.
  apply (chat_rate_before_auth remote conversation 3 _ _ [] 1
           (LLM.request conversation)
           "Invalid request: rate limit exceeded for API key" _
           eq_refl eq_refl).
  - apply is_rate_spec. reflexivity.
  - apply is_auth_spec. reflexivity.
Defined.

(** ** The safety layer *)

(** C9. [is_emergency] is a function from the input string to a boolean,
    true exactly when some phrase of [EMERGENCY_KEYWORDS] is a substring of
    the lowercased input; it is true of "I have chest pain and can't
    breathe" and false of "I have a mild headache". *)
Theorem is_emergency_spec :
  (∀ text, SafetyLayer.is_emergency text = true ↔
           ∃ kw, kw ∈ EMERGENCY_KEYWORDS ∧ occurs_in kw (Py.lower text)) ∧
  SafetyLayer.is_emergency "I have chest pain and can't breathe" = true ∧
  SafetyLayer.is_emergency "I have a mild headache" = false.
Proof.
  split; [|split; reflexivity].
  intros text. unfold SafetyLayer.is_emergency. rewrite any_spec.
  by setoid_rewrite contains_occurs.
Qed.

(** ** The snapshot *)

Section snapshot.

Lemma turn_of_json_turn_json m :
  Snapshot.turn_of_json (CM.turn_json m) = Some m.
Proof. by destruct m. Qed.

Lemma mapM_turn_of_json h :
  mapM Snapshot.turn_of_json (map CM.turn_json h) = Some h.
Proof.
  induction h as [|m h IH]; [done|].
  cbn [map mapM]. rewrite turn_of_json_turn_json, IH. done.
Qed.

(** What is read back from a file just saved is the history. *)
Lemma load_messages_save self filename now fs :
  Snapshot.load_messages (CM.save self filename now fs).2
    (CM.save self filename now fs).1 = Some (CM.history self).
Proof.
  unfold Snapshot.load_messages, CM.save. cbn [fst snd].
  rewrite lookup_insert_eq. simpl. apply mapM_turn_of_json.
Qed.

(** The stores of the program: [add] is only ever called with the role
    "user" or "assistant", so every stored role is one of the two. *)
Lemma add_internal_roles self r c :
  internal_role r →
  Forall (λ m, internal_role (role m)) (CM.history self) →
  Forall (λ m, internal_role (role m)) (CM.history (CM.add self r c)).
Proof.
  intros Hr Hh. destruct (add_suffix self r c) as [k Hk].
  assert (Hall : Forall (λ m, internal_role (role m))
                   (CM.history self ++ [mkTurn r c])).
  { apply Forall_app. split; [done|]. by constructor. }
  rewrite Hk in Hall. by apply Forall_app in Hall as [_ ?].
Qed.

End snapshot.

(** C8. Saving a store of K turns and reading the [messages] field of the
    saved document back gives K turns, the stored ones, each with its role
    and content, in the stored order. The roles are written as they are
    stored, not as the history view relabels them: for a store whose roles
    are "user" and "assistant", as [add] is given them everywhere in the
    program, so are the roles read back. *)
Theorem save_load_roundtrip (self : CM.t) (filename now : string) (fs : Files) :
  let saved := CM.save self filename now fs in
  saved.1 = filename ∧
  ∃ turns,
    Snapshot.load_messages saved.2 saved.1 = Some turns ∧
    length turns = length (CM.history self) ∧
    (∀ i, turns !! i = CM.history self !! i) ∧
    (Forall (λ m, internal_role (role m)) (CM.history self) →
     Forall (λ m, internal_role (role m)) turns).
Proof.
  intros saved. split; [done|]. exists (CM.history self).
  split; [apply load_messages_save | done].
Qed.

Lemma save_load_roundtrip_witness :
  let s := CM.add (CM.add CM.default "user" "A") "assistant" "B" in
  let saved := CM.save s "medassist_session.json" "2026-01-01T00:00:00" ∅ in
  Snapshot.load_messages saved.2 saved.1 =
    Some [mkTurn "user" "A"; mkTurn "assistant" "B"] ∧
  ∃ turns,
    Snapshot.load_messages saved.2 saved.1 = Some turns ∧
    length turns = 2%nat ∧
    Forall (λ m, internal_role (role m)) turns.
Proof.
  intros s saved. split; [reflexivity|].
  destruct (save_load_roundtrip s "medassist_session.json"
              "2026-01-01T00:00:00" ∅) as (_ & turns & Hload & Hlen & _ & Hroles).
  exists turns. split; [exact Hload|]. split; [exact Hlen|].
  apply Hroles. constructor; [by left|]. constructor; [by right|]. constructor.
Defined.

(** * Further properties of the code *)

(** ** The turn window *)

(** X1. With a positive bound, a store within its bound holds, after any
    sequence of [add], exactly the last [2 * max_turns] of the turns it had
    and was given, in their order; it is within its bound again, and the
    turn added last is its last turn. *)
Theorem window_keeps_last_turns (self : CM.t) (turns : list Turn)
    (Hm : 0 < CM.max_turns self)
    (Hlen : Z.of_nat (length (CM.history self)) ≤ 2 * CM.max_turns self) :
  let h := CM.history self ++ turns in
  let s' := CM.add_all self turns in
  CM.history s' = drop (length h - Z.to_nat (2 * CM.max_turns self)) h ∧
  Z.of_nat (length (CM.history s')) ≤ 2 * CM.max_turns s' ∧
  (turns ≠ [] → last (CM.history s') = last turns).
Proof.
  intros h s'.
  destruct (add_all_window_pos self turns Hm Hlen) as (Hb & _ & Hh & Hl).
  split_and!; [|by subst s'; rewrite add_all_max_turns|done].
  fold h s' in Hh. rewrite Hh. f_equal. lia.
Qed.

Lemma window_keeps_last_turns_witness :
  let turns := [mkTurn "user" "a"; mkTurn "assistant" "b"; mkTurn "user" "c"] in
  CM.history (CM.add_all (CM.init 1) turns) =
    [mkTurn "assistant" "b"; mkTurn "user" "c"].
Proof.
  intros turns.
  exact (proj1 (window_keeps_last_turns (CM.init 1) turns
                  ltac:(simpl; lia) ltac:(simpl; lia))).
Defined.

(** X2. With a positive bound, [add] to a store below its bound only
    appends; [add] to a store at its bound drops the oldest turn and
    appends, so the store stays at its bound. *)
Theorem add_slides_window (self : CM.t) (r c : string)
    (Hm : 0 < CM.max_turns self) :
  (Z.of_nat (length (CM.history self)) < 2 * CM.max_turns self →
   CM.history (CM.add self r c) = CM.history self ++ [mkTurn r c]) ∧
  (Z.of_nat (length (CM.history self)) = 2 * CM.max_turns self →
   CM.history (CM.add self r c) = drop 1 (CM.history self) ++ [mkTurn r c] ∧
   length (CM.history (CM.add self r c)) = length (CM.history self)).
Proof.
  rewrite add_history_pos by done. cbv zeta. rewrite length_app. simpl.
  split; intros Hlen.
  - replace (_ - _)%nat with 0%nat by lia. done.
  - replace (_ - _)%nat with 1%nat by lia.
    rewrite drop_app_le by lia. split; [done|].
    rewrite length_app, length_drop. simpl. lia.
Qed.

Lemma add_slides_window_witness :
  CM.history (CM.add (CM.init 1) "user" "a") = [mkTurn "user" "a"] ∧
  CM.history (CM.add (CM.add_all (CM.init 1)
                        [mkTurn "user" "a"; mkTurn "assistant" "b"])
                "user" "c") =
    [mkTurn "assistant" "b"; mkTurn "user" "c"].
Proof.
  split.
  - apply (proj1 (add_slides_window (CM.init 1) "user" "a" ltac:(simpl; lia))).
    simpl. lia.
  - apply (proj2 (add_slides_window
                    (CM.add_all (CM.init 1)
                       [mkTurn "user" "a"; mkTurn "assistant" "b"])
                    "user" "c" ltac:(simpl; lia))).
    simpl. lia.
Defined.

(** X3. With a negative bound, [add] appends and then drops
    [2 * |max_turns|] turns from the front: a store with fewer turns than
    that is left empty, the turn just added included. *)
Theorem add_negative_bound (self : CM.t) (r c : string)
    (Hm : CM.max_turns self < 0) :
  CM.history (CM.add self r c) =
    drop (Z.to_nat (- (2 * CM.max_turns self)))
      (CM.history self ++ [mkTurn r c]) ∧
  (Z.of_nat (length (CM.history self)) < - (2 * CM.max_turns self) →
   CM.history (CM.add self r c) = []).
Proof.
  assert (Hh : CM.history (CM.add self r c) =
    drop (Z.to_nat (- (2 * CM.max_turns self)))
      (CM.history self ++ [mkTurn r c])).
  { unfold CM.add.
    destruct (Z.gtb_spec (Z.of_nat (length (CM.history self ++ [mkTurn r c])))
                (CM.max_turns self * 2)) as [_|?]; [|lia].
    cbn [CM.history]. unfold Py.slice_from.
    destruct (Z.ltb_spec (- (CM.max_turns self * 2)) 0) as [?|_]; [lia|].
    set (h := CM.history self ++ [mkTurn r c]).
    destruct (Z.min_spec (- (CM.max_turns self * 2)) (Z.of_nat (length h)))
      as [[_ ->]|[Hge ->]].
    - f_equal. lia.
    - rewrite !drop_ge by lia. done. }
  split; [done|]. intros Hlen. rewrite Hh.
  apply drop_ge. rewrite length_app. simpl. lia.
Qed.

Lemma add_negative_bound_witness :
  CM.history (CM.add (CM.init (-1)) "user" "a") = [].
Proof.
  apply (proj2 (add_negative_bound (CM.init (-1)) "user" "a"
                  ltac:(simpl; lia))).
  simpl. lia.
Defined.

(** X4. With a positive bound, a user turn just added is what
    [latest_user_message] returns while fewer than [2 * max_turns] turns of
    other roles have been added after it; once that many have been added it
    has left the window and [latest_user_message] returns the empty
    string. *)
Theorem latest_user_message_window (self : CM.t) (c : string)
    (turns : list Turn)
    (Hm : 0 < CM.max_turns self)
    (Hturns : Forall (λ x, role x ≠ "user") turns) :
  let s' := CM.add_all (CM.add self "user" c) turns in
  (Z.of_nat (length turns) < 2 * CM.max_turns self →
   CM.latest_user_message s' = c) ∧
  (2 * CM.max_turns self ≤ Z.of_nat (length turns) →
   CM.latest_user_message s' = "").
Proof.
  intros s'. split; intros Hlen.
  - by apply latest_user_message_in_window.
  - apply latest_user_message_none. subst s'.
    pose proof (add_length_pos self "user" c Hm) as Hbound.
    rewrite add_all_history_pos by by rewrite ?add_max_turns.
    cbv zeta. rewrite add_max_turns, length_app.
    rewrite drop_app_ge by lia. by apply Forall_drop.
Qed.

Lemma latest_user_message_window_witness :
  let s := CM.add (CM.init 1) "user" "q" in
  CM.latest_user_message (CM.add_all s [mkTurn "assistant" "a"]) = "q" ∧
  CM.latest_user_message
    (CM.add_all s [mkTurn "assistant" "a"; mkTurn "assistant" "b"]) = "".
Proof.
  intros s. split.
  - apply (proj1 (latest_user_message_window (CM.init 1) "q"
                    [mkTurn "assistant" "a"] ltac:(simpl; lia)
                    ltac:(repeat constructor; discriminate))).
    simpl. lia.
  - apply (proj2 (latest_user_message_window (CM.init 1) "q"
                    [mkTurn "assistant" "a"; mkTurn "assistant" "b"]
                    ltac:(simpl; lia)
                    ltac:(repeat constructor; discriminate))).
    simpl. lia.
Defined.

(** X5. With a positive bound, right after [add("user", c)] the request
    [chat] builds has [c] as its prompt and, as its history, the turns the
    store holds before [c], relabelled, in order: the prompt itself is the
    one turn left out. *)
Theorem request_after_user_add (self : CM.t) (c : string)
    (Hm : 0 < CM.max_turns self) :
  ∃ h, CM.history (CM.add self "user" c) = h ++ [mkTurn "user" c] ∧
       h `suffix_of` CM.history self ∧
       LLM.request (CM.add self "user" c) =
         mkRequest (map CM.to_gemini h) c.
Proof.
  destruct (views_after_user_add self c Hm) as (Hl & h & Hh & Hv).
  exists h. split_and!; [done| |].
  - pose proof (add_suffix self "user" c) as [k Hk]. rewrite Hh in Hk.
    rewrite app_assoc in Hk. apply app_inj_tail in Hk as [-> _].
    by apply suffix_app_r.
  - unfold LLM.request. by rewrite Hl, Hv.
Qed.

Lemma request_after_user_add_witness :
  LLM.request
    (CM.add (CM.add (CM.add CM.default "assistant" "Hello") "user" "A")
       "user" "B") =
  mkRequest [mkGeminiMsg "model" [mkPart "Hello"];
             mkGeminiMsg "user" [mkPart "A"]] "B".
Proof.
  destruct (request_after_user_add
              (CM.add (CM.add CM.default "assistant" "Hello") "user" "A") "B"
              ltac:(simpl; lia)) as (h & Hh & _ & Hrq).
  apply app_inj_tail in Hh as [<- _]. exact Hrq.
Defined.

(** ** The retry loop: shape, timing and results *)

Section runs_shape.
Variables (remote : Remote) (rq : Request) (retries : Z).

Lemma runs_nonempty a c res tr :
  runs remote rq retries a c res tr → a ≤ retries →
  ∃ o os, LLM.calls tr = o :: os.
Proof.
  intros Hruns Ha. destruct (runs_head _ _ _ _ _ _ _ Hruns Ha) as (o & tr' & ->).
  simpl. eauto.
Qed.

Lemma schedule_cons a o os :
  os ≠ [] →
  Trace.schedule rq a (o :: os) =
  Call a rq o :: Sleep (2 * a) :: Trace.schedule rq (a + 1) os.
Proof. by destruct os. Qed.

Lemma runs_schedule a c res tr :
  runs remote rq retries a c res tr →
  tr = Trace.schedule rq a (LLM.calls tr).
Proof.
  induction 1 as [| | | |a c e res tr Hlt Hr Hrate Hauth Hruns IH|]; try done.
  destruct (runs_nonempty _ _ _ _ Hruns) as (o & os & Hos); [lia|].
  change (LLM.calls (Call a rq (Failure e) :: Sleep (2 * a) :: tr))
    with (Failure e :: LLM.calls tr).
  rewrite schedule_cons by by rewrite Hos. by rewrite <- IH.
Qed.

Lemma schedule_sleeps a os :
  Trace.sleeps (Trace.schedule rq a os) =
  map (λ i, 2 * (a + Z.of_nat i)) (seq 0 (length os - 1)).
Proof.
  revert a. induction os as [|o os IH]; intros a; [done|].
  destruct os as [|o' os]; [done|].
  rewrite schedule_cons by done.
  change (Trace.sleeps (Call a rq o :: Sleep (2 * a) ::
                        Trace.schedule rq (a + 1) (o' :: os)))
    with (2 * a :: Trace.sleeps (Trace.schedule rq (a + 1) (o' :: os))).
  rewrite IH.
  change (length (o :: o' :: os) - 1)%nat with (S (length os)).
  change (length (o' :: os) - 1)%nat with (length os - 0)%nat.
  rewrite Nat.sub_0_r. cbn [seq map].
  rewrite <- seq_shift, map_map. f_equal; [lia|].
  apply map_ext. intros i. lia.
Qed.

Lemma sum_schedule (k : nat) :
  foldr Z.add 0 (map (λ i, 2 * (1 + Z.of_nat i)) (seq 0 k)) =
  Z.of_nat k * (Z.of_nat k + 1).
Proof.
  induction k as [|k IH]; [done|].
  rewrite seq_S, map_app, foldr_app. simpl.
  assert (Hshift : ∀ (l : list Z) z, foldr Z.add z l = foldr Z.add 0 l + z).
  { induction l as [|x l IHl]; intros z; simpl; [lia|]. rewrite IHl. lia. }
  rewrite Hshift, IH. lia.
Qed.

(** Every call of a run but the last failed transiently, and the result
    tells how the last one went. *)
Lemma runs_result a c res tr :
  runs remote rq retries a c res tr →
  Forall Trace.failed_transiently
    (take (length (LLM.calls tr) - 1) (LLM.calls tr)) ∧
  match res with
  | Return text => last (LLM.calls tr) = Some (Response text)
  | Raise RateLimited =>
      ∃ e, last (LLM.calls tr) = Some (Failure e) ∧ rate_like e
  | Raise AuthError =>
      ∃ e, last (LLM.calls tr) = Some (Failure e) ∧
           auth_like e ∧ ¬ rate_like e
  | Raise (ExhaustedRetries r e) =>
      r = retries ∧ last (LLM.calls tr) = Some (Failure e) ∧ transient e ∧
      a + Z.of_nat (length (LLM.calls tr)) = retries + 1
  | Raise FailedAfterRetries => retries < a ∧ tr = []
  end.
Proof.
  induction 1 as [|a c text Ha Hr|a c e Ha Hr Hrate|a c e Ha Hr Hrate Hauth
                 |a c e res tr Hlt Hr Hrate Hauth Hruns [IHall IHres]
                 |a c e Ha Hr Hrate Hauth]; simpl.
  - split; [constructor | done].
  - split; [constructor | done].
  - split; [constructor|]. exists e. split; [done|]. by apply is_rate_spec.
  - split; [constructor|]. exists e. split_and!; [done|by apply is_auth_spec|].
    intros Hx%is_rate_spec. congruence.
  - destruct (runs_nonempty _ _ _ _ Hruns) as (o & os & Hos); [lia|].
    fold (LLM.calls tr). rewrite Hos in *. simpl in *.
    rewrite Nat.sub_0_r in *. split.
    + constructor; [|done]. exists e. split; [done|]. by apply transient_spec.
    + destruct res as [text|[| |r e'|]]; try done.
      * destruct IHres as (? & ? & ? & ?). split_and!; try done. lia.
      * destruct IHres as [? _]. lia.
  - split; [constructor|]. split_and!; try done; [|lia].
    by apply transient_spec.
Qed.

End runs_shape.

(** X6. The trace of [chat] is fixed by the outcomes of its calls: the
    calls are numbered from 1, all carry the request built from the
    conversation, and every call but the last is followed by a sleep of
    twice its number. *)
Theorem chat_schedule
    (remote : Remote) (conversation : CM.t) (retries : Z)
    (res : Result) (tr : list Event)
    (Hchat : LLM.chat remote conversation retries = (res, tr)) :
  tr = Trace.schedule (LLM.request conversation) 1 (LLM.calls tr).
Proof. eapply runs_schedule. by apply chat_runs. Qed.

Lemma chat_schedule_witness :
  let conversation := CM.add CM.default "user" "hello" in
  let remote := LLM.scripted [Failure "reset by peer"; Response "hi"] in
  (LLM.chat remote conversation 3).2 =
    Trace.schedule (LLM.request conversation) 1
      [Failure "reset by peer"; Response "hi"].
Proof.
  intros conversation remote.
  exact (chat_schedule remote conversation 3 _ _ eq_refl).
Defined.

(** X7. [chat] sleeps 2, 4, ... seconds, once between two calls: with [n]
    calls made it has slept [n * (n - 1)] seconds in all, which is at most
    [retries * (retries - 1)], so at most 6 with the default of 3. *)
Theorem chat_backoff
    (remote : Remote) (conversation : CM.t) (retries : Z)
    (res : Result) (tr : list Event)
    (Hchat : LLM.chat remote conversation retries = (res, tr)) :
  let n := length (LLM.calls tr) in
  Trace.sleeps tr = map (λ i, 2 * Z.of_nat i) (seq 1 (n - 1)) ∧
  Trace.total_sleep tr = Z.of_nat n * (Z.of_nat n - 1) ∧
  (1 ≤ retries → Trace.total_sleep tr ≤ retries * (retries - 1)).
Proof.
  intros n.
  pose proof (chat_calls_length _ _ _ _ _ Hchat) as Hn. fold n in Hn.
  assert (Hs : Trace.sleeps tr =
                map (λ i, 2 * (1 + Z.of_nat i)) (seq 0 (n - 1))).
  { rewrite (runs_schedule _ _ _ _ _ _ _ (chat_runs _ _ _ _ _ Hchat)) at 1.
    apply schedule_sleeps. }
  assert (Ht : Trace.total_sleep tr = Z.of_nat n * (Z.of_nat n - 1)).
  { unfold Trace.total_sleep. rewrite Hs, sum_schedule.
    destruct n; [done | simpl; lia]. }
  split_and!; [|done|].
  - rewrite Hs, <- seq_shift, map_map. apply map_ext. intros i. lia.
  - intros Hr. rewrite Ht. nia.
Qed.

Lemma chat_backoff_witness :
  let conversation := CM.add CM.default "user" "hello" in
  let remote :=
    LLM.scripted [Failure "reset by peer"; Failure "HTTP 502"; Response "hi"] in
  Trace.sleeps (LLM.chat remote conversation 3).2 = [2; 4] ∧
  Trace.total_sleep (LLM.chat remote conversation 3).2 = 6.
Proof.
  intros conversation remote.
  destruct (chat_backoff remote conversation 3 _ _ eq_refl) as (Hs & Ht & _).
  split; [exact Hs | exact Ht].
Defined.

(** X8. With [retries] zero or negative [chat] calls nothing and raises the
    error of its last line; with [retries] at least 1 it makes at least one
    call and never raises that error. *)
Theorem chat_without_attempts
    (remote : Remote) (conversation : CM.t) (retries : Z)
    (res : Result) (tr : list Event)
    (Hchat : LLM.chat remote conversation retries = (res, tr)) :
  (retries ≤ 0 → res = Raise FailedAfterRetries ∧ tr = []) ∧
  (1 ≤ retries →
   res ≠ Raise FailedAfterRetries ∧ (1 ≤ length (LLM.calls tr))%nat).
Proof.
  pose proof (chat_runs _ _ _ _ _ Hchat) as Hruns. split; intros Hr.
  - inversion Hruns; subst; try lia. done.
  - destruct (runs_nonempty _ _ _ _ _ _ _ Hruns) as (o & os & Hos); [lia|].
    split; [|rewrite Hos; simpl; lia].
    intros ->. apply runs_result in Hruns as [_ [? _]]. lia.
Qed.

Lemma chat_without_attempts_witness :
  let conversation := CM.add CM.default "user" "hello" in
  LLM.chat (LLM.scripted [Response "hi"]) conversation 0 =
    (Raise FailedAfterRetries, []) ∧
  (LLM.chat (LLM.scripted [Response "hi"]) conversation 1).1 ≠
    Raise FailedAfterRetries.
Proof.
  intros conversation. split.
  - destruct (proj1 (chat_without_attempts (LLM.scripted [Response "hi"])
                       conversation 0 _ _ eq_refl) ltac:(lia)) as [H1 H2].
    exact (f_equal2 pair H1 H2).
  - apply (proj2 (chat_without_attempts (LLM.scripted [Response "hi"])
                    conversation 1 _ _ eq_refl)). lia.
Defined.

(** X9. The result of [chat] tells how its calls went. Every call but the
    last failed transiently. When [chat] returns a text, its last call
    returned it; when it raises the rate-limit error, the last call failed
    with a rate message; when it raises the authentication error, the last
    call failed with an authentication message that is not a rate message;
    when it raises the exhausted-retries error, that error carries [retries]
    and the message of the last call, which failed transiently, and exactly
    [retries] calls were made. *)
Theorem chat_result_explained
    (remote : Remote) (conversation : CM.t) (retries : Z)
    (res : Result) (tr : list Event)
    (Hchat : LLM.chat remote conversation retries = (res, tr)) :
  Forall Trace.failed_transiently
    (take (length (LLM.calls tr) - 1) (LLM.calls tr)) ∧
  match res with
  | Return text => last (LLM.calls tr) = Some (Response text)
  | Raise RateLimited =>
      ∃ e, last (LLM.calls tr) = Some (Failure e) ∧ rate_like e
  | Raise AuthError =>
      ∃ e, last (LLM.calls tr) = Some (Failure e) ∧
           auth_like e ∧ ¬ rate_like e
  | Raise (ExhaustedRetries r e) =>
      r = retries ∧ last (LLM.calls tr) = Some (Failure e) ∧ transient e ∧
      Z.of_nat (length (LLM.calls tr)) = retries
  | Raise FailedAfterRetries => retries ≤ 0 ∧ tr = []
  end.
Proof.
  pose proof (chat_runs _ _ _ _ _ Hchat) as Hruns.
  apply runs_result in Hruns as [Hall Hres]. split; [done|].
  destruct res as [text|[| |r e|]]; try done.
  - destruct Hres as (? & ? & ? & ?). split_and!; try done. lia.
  - destruct Hres as [? ?]. split; [lia | done].
Qed.

Lemma chat_result_explained_witness :
  let conversation := CM.add CM.default "user" "hello" in
  let remote := LLM.scripted [Failure "reset by peer"; Failure "HTTP 502"] in
  LLM.chat remote conversation 2 =
    (Raise (ExhaustedRetries 2 "HTTP 502"),
     Trace.schedule (LLM.request conversation) 1
       [Failure "reset by peer"; Failure "HTTP 502"]) ∧
  Forall Trace.failed_transiently [Failure "reset by peer"] ∧
  transient "HTTP 502".
Proof.
  intros conversation remote. split; [reflexivity|].
  destruct (chat_result_explained remote conversation 2 _ _ eq_refl)
    as (Hall & _ & _ & Hlast & _).
  split; [exact Hall | exact Hlast].
Defined.

(** ** The safety layer: embedding and length *)

Section emergency.

Lemma lower_app (s1 s2 : string) :
  Py.lower (s1 +:+ s2) = Py.lower s1 +:+ Py.lower s2.
Proof.
  induction s1 as [|c s1 IH]; [done|].
  change (String (Py.lower_ascii c) (Py.lower (s1 +:+ s2)) =
          String (Py.lower_ascii c) (Py.lower s1 +:+ Py.lower s2)).
  by rewrite IH.
Qed.

Lemma lower_length (s : string) : String.length (Py.lower s) = String.length s.
Proof. induction s as [|c s IH]; simpl; [done | by rewrite IH]. Qed.

Lemma length_append (s1 s2 : string) :
  String.length (s1 +:+ s2) = (String.length s1 + String.length s2)%nat.
Proof.
  induction s1 as [|c s1 IH]; [done|].
  change (S (String.length (s1 +:+ s2)) =
          S (String.length s1 + String.length s2)).
  by rewrite IH.
Qed.

Lemma occurs_in_app (needle hay pre post : string) :
  occurs_in needle hay → occurs_in needle (pre +:+ hay +:+ post).
Proof.
  intros (p & q & ->). exists (pre +:+ p), (q +:+ post).
  by rewrite !append_assoc.
Qed.

Lemma occurs_in_length (needle hay : string) :
  occurs_in needle hay → (String.length needle ≤ String.length hay)%nat.
Proof. intros (p & q & ->). rewrite !length_append. lia. Qed.

End emergency.

(** X10. A text that [is_emergency] flags stays flagged inside any longer
    text: whatever is written before and after it, the keyword is still
    found. *)
Theorem is_emergency_embedded (text pre post : string)
    (Hflag : SafetyLayer.is_emergency text = true) :
  SafetyLayer.is_emergency (pre +:+ text +:+ post) = true.
Proof.
  unfold SafetyLayer.is_emergency in *.
  apply any_spec in Hflag as (kw & Hkw & Hin%contains_occurs).
  apply any_spec. exists kw. split; [done|].
  apply contains_occurs. rewrite !lower_app. by apply occurs_in_app.
Qed.

Lemma is_emergency_embedded_witness :
  SafetyLayer.is_emergency ("My father had a " +:+ "STROKE" +:+ " last year")
    = true.
Proof. apply (is_emergency_embedded "STROKE"). reflexivity. Defined.

(** X11. A text of fewer than 6 characters is never flagged: no keyword of
    the table is that short. *)
Theorem is_emergency_short (text : string)
    (Hshort : (String.length text < 6)%nat) :
  SafetyLayer.is_emergency text = false.
Proof.
  destruct (SafetyLayer.is_emergency text) eqn:E; [|done].
  unfold SafetyLayer.is_emergency in E.
  apply any_spec in E as (kw & Hkw & Hin%contains_occurs%occurs_in_length).
  rewrite lower_length in Hin.
  assert (Hmin : Forall (λ k, 6 ≤ String.length k)%nat EMERGENCY_KEYWORDS).
  { repeat constructor; simpl; lia. }
  rewrite Forall_forall in Hmin. specialize (Hmin kw Hkw). lia.
Qed.

Lemma is_emergency_short_witness : SafetyLayer.is_emergency "help!" = false.
Proof. apply is_emergency_short. simpl. lia. Defined.

(** ** Rendering *)

Section rendering.

Lemma contains_false_occurs (needle hay : string) :
  Py.contains needle hay = false → ¬ occurs_in needle hay.
Proof. intros Hc Ho%contains_occurs. congruence. Qed.

Lemma contains_char_cons (c d : ascii) (s : string) :
  Py.contains (String c "") (String d s) =
  bool_decide (c = d) || Py.contains (String c "") s.
Proof.
  cbn [Py.contains]. f_equal. simpl.
  destruct (Ascii.ascii_dec c d) as [->|Hne].
  - rewrite bool_decide_eq_true_2 by done. by destruct s.
  - by rewrite bool_decide_eq_false_2.
Qed.

Lemma contains_char_app (c : ascii) (s1 s2 : string) :
  Py.contains (String c "") (s1 +:+ s2) =
  Py.contains (String c "") s1 || Py.contains (String c "") s2.
Proof.
  induction s1 as [|d s1 IH].
  - change ("" +:+ s2) with s2. by destruct s2.
  - change (String d s1 +:+ s2) with (String d (s1 +:+ s2)).
    rewrite !contains_char_cons, IH. by rewrite orb_assoc.
Qed.

(** [replace] leaves no occurrence of the character it replaces, when the
    replacement has none. *)
Lemma replace_char_gone (old : ascii) (new s : string) :
  Py.contains (String old "") new = false →
  Py.contains (String old "") (PyStr.replace_char old new s) = false.
Proof.
  intros Hnew. induction s as [|c s IH]; [done|].
  cbn [PyStr.replace_char]. destruct (Ascii.eqb_spec c old) as [->|Hne].
  - by rewrite contains_char_app, Hnew, IH.
  - rewrite contains_char_cons, IH.
    by rewrite bool_decide_eq_false_2 by congruence.
Qed.

End rendering.

(** X13. Whatever [re.sub] does, [md_to_html] returns a paragraph, opened by
    [<p>] and closed by [</p>], in which no newline is left: the last step
    turns every one of them into [<br>]. *)
Theorem md_to_html_one_line (re_sub : ReSub) (text : string) :
  (∃ body, UI.md_to_html re_sub text = "<p>" +:+ body +:+ "</p>") ∧
  ¬ occurs_in PyStr.nl (UI.md_to_html re_sub text).
Proof.
  split; [unfold UI.md_to_html; eauto|].
  apply contains_false_occurs. unfold UI.md_to_html, PyStr.nl.
  rewrite !contains_char_app, replace_char_gone by done. done.
Qed.

(** X14. A bubble that is not the assistant's holds its content as it is,
    between [<p>] and [</p>]: nothing of it is escaped or rewritten. *)
Theorem render_message_verbatim (re_sub : ReSub) (ts role content : string)
    (Hrole : role ≠ "assistant") :
  occurs_in ("<p>" +:+ content +:+ "</p>")
    (UI.render_message re_sub ts role content).
Proof.
  unfold UI.render_message. apply String.eqb_neq in Hrole. rewrite Hrole.
  exists
    (PyStr.nl +:+ "    <div class=" +:+ PyStr.dq +:+ "msg user" +:+ PyStr.dq +:+
     ">" +:+ PyStr.nl +:+ "      <div class=" +:+ PyStr.dq +:+ "avatar user" +:+
     PyStr.dq +:+ ">👤</div>" +:+ PyStr.nl +:+ "      <div class=" +:+
     PyStr.dq +:+ "bubble user" +:+ PyStr.dq +:+ ">"),
    ("<div class=" +:+ PyStr.dq +:+ "ts" +:+ PyStr.dq +:+ ">" +:+ ts +:+
     "</div></div>" +:+ PyStr.nl +:+ "    </div>").
  reflexivity.
Qed.

Lemma render_message_verbatim_witness :
  occurs_in ("<p>" +:+ "<script>alert(1)</script>" +:+ "</p>")
    (UI.render_message (λ _ _ s _, s) "12:00" "user"
       "<script>alert(1)</script>").
Proof. apply render_message_verbatim. discriminate. Defined.

(** ** The handlers *)

Section handlers.
Variable re_sub : ReSub.
Implicit Types w : UI.World.

Lemma blank_cons c s : blank (String c s) ↔ PyStr.is_space c = true ∧ blank s.
Proof. unfold blank. simpl. exact (Forall_cons _ _ _). Qed.

Lemma lstrip_blank s : PyStr.lstrip s = "" ↔ blank s.
Proof.
  induction s as [|c s IH]; [by split; [constructor|]|].
  rewrite blank_cons. simpl. destruct (PyStr.is_space c).
  - rewrite IH. tauto.
  - split; [done | by intros [? _]].
Qed.

Lemma rstrip_blank s : PyStr.rstrip s = "" ↔ blank s.
Proof.
  induction s as [|c s IH]; [by split; [constructor|]|].
  rewrite blank_cons. cbn [PyStr.rstrip].
  destruct (PyStr.is_space c); simpl.
  - destruct (String.eqb_spec (PyStr.rstrip s) "") as [Heq|Hne].
    + split; [|done]. intros _. split; [done|]. by apply IH.
    + split; [done|]. intros [_ Hb]. by apply IH in Hb.
  - split; [done | by intros [? _]].
Qed.

Lemma lstrip_head s :
  PyStr.lstrip s = "" ∨
  ∃ c t, PyStr.lstrip s = String c t ∧ PyStr.is_space c = false.
Proof.
  induction s as [|c s IH]; [by left|]. simpl.
  destruct (PyStr.is_space c) eqn:E; [done|]. right. eauto.
Qed.

(** [strip] leaves nothing exactly of the texts made of white space. *)
Lemma strip_blank s : PyStr.strip s = "" ↔ blank s.
Proof.
  unfold PyStr.strip. rewrite rstrip_blank. split.
  - intros Hb. apply lstrip_blank.
    destruct (lstrip_head s) as [?|(c & t & Heq & Hc)]; [done|].
    rewrite Heq in Hb. apply blank_cons in Hb as [? _]. congruence.
  - intros Hb%lstrip_blank. rewrite Hb. constructor.
Qed.

Lemma net_events_net tr rest :
  net_events (map Net tr ++ rest) = tr ++ net_events rest.
Proof.
  induction tr as [|ev tr IH]; [done|].
  change (net_events (map Net (ev :: tr) ++ rest))
    with (ev :: net_events (map Net tr ++ rest)).
  by rewrite IH.
Qed.

Lemma net_events_send a tr b :
  net_events (Display a :: map Net tr ++ [Display b]) = tr.
Proof.
  change (net_events (Display a :: map Net tr ++ [Display b]))
    with (net_events (map Net tr ++ [Display b])).
  rewrite net_events_net. apply app_nil_r.
Qed.

(** What a send with something to send does, given how [chat] goes. *)
Lemma on_send_nonblank remote ts_user ts_reply w res tr :
  let text := PyStr.strip (UI.user_input w) in
  let conv := CM.add (UI.conversation w) "user" text in
  text ≠ "" →
  LLM.chat remote conv 3 = (res, tr) →
  let out := UI.on_send re_sub remote ts_user ts_reply w in
  UI.conversation out.1 = CM.add conv "assistant" (UI.reply_of res) ∧
  net_events out.2 = tr ∧
  UI.user_input out.1 = "" ∧
  UI.files out.1 = UI.files w.
Proof.
  intros text conv Htext Hchat out. subst out. unfold UI.on_send.
  fold text. apply String.eqb_neq in Htext. rewrite Htext.
  fold conv. rewrite Hchat. cbn [fst snd UI.conversation UI.user_input
    UI.files]. split_and!; try done.
  apply net_events_send.
Qed.



End handlers.

(** X15. A send with nothing typed, or white space only, does nothing: the
    state is as it was, nothing is shown and the remote is not called. *)
Theorem on_send_blank (re_sub : ReSub) (remote : Remote)
    (ts_user ts_reply : string) (w : UI.World)
    (Hblank : blank (UI.user_input w)) :
  UI.on_send re_sub remote ts_user ts_reply w = (w, []).
Proof.
  unfold UI.on_send. apply strip_blank in Hblank. by rewrite Hblank.
Qed.

Lemma on_send_blank_witness :
  let w := UI.type_text "   " (UI.launch (λ _ _ s _, s) "09:00" ∅) in
  UI.on_send (λ _ _ s _, s) (LLM.scripted []) "09:01" "09:02" w = (w, []).
Proof.
  intros w. apply on_send_blank.
  unfold blank. simpl. repeat constructor.
Defined.



(** ** The session *)

Section session.
Variable re_sub : ReSub.

Lemma settled_add_assistant (conv : CM.t) (c : string) :
  CM.max_turns conv = 20 →
  Forall (λ m, internal_role (role m)) (CM.history conv) →
  let conv' := CM.add conv "assistant" c in
  CM.max_turns conv' = 20 ∧
  (length (CM.history conv') ≤ 40)%nat ∧
  Forall (λ m, internal_role (role m)) (CM.history conv') ∧
  ∃ m, last (CM.history conv') = Some m ∧ role m = "assistant".
Proof.
  intros Hm Hroles conv'. subst conv'. split_and!.
  - by rewrite add_max_turns.
  - pose proof (add_length_pos conv "assistant" c ltac:(lia)). lia.
  - apply add_internal_roles; [by right | done].
  - exists (mkTurn "assistant" c). split; [|done].
    apply add_newest_pos. lia.
Qed.

Lemma settled_launch ts fs : settled (UI.launch re_sub ts fs).
Proof.
  unfold settled, UI.launch, UI.build_chatbot_ui. cbn [fst UI.conversation].
  destruct (settled_add_assistant CM.default UI.welcome eq_refl
              ltac:(constructor)) as (? & ? & ? & ?).
  split_and!; eauto.
Qed.

Lemma settled_act w a : settled w → settled (UI.act re_sub w a).1.
Proof.
  intros (Hm & Hlen & Hroles & Hlast).
  destruct a as [s|remote ts_user ts_reply| |now]; simpl.
  - done.
  - destruct (String.eqb_spec (PyStr.strip (UI.user_input w)) "")
      as [Heq|Hne].
    + unfold UI.on_send. rewrite Heq. done.
    + destruct (LLM.chat remote
                  (CM.add (UI.conversation w) "user"
                     (PyStr.strip (UI.user_input w))) 3)
        as [res tr] eqn:Hchat.
      destruct (on_send_nonblank re_sub remote ts_user ts_reply w res tr
                  Hne Hchat) as (Hconv & _).
      unfold settled. rewrite Hconv.
      destruct (settled_add_assistant
                  (CM.add (UI.conversation w) "user"
                     (PyStr.strip (UI.user_input w)))
                  (UI.reply_of res)) as (? & ? & ? & ?).
      * by rewrite add_max_turns.
      * apply add_internal_roles; [by left | done].
      * split_and!; eauto.
  - unfold settled. simpl. split_and!; auto with lia.
  - done.
Qed.

End session.

(** X17. However the user types, sends, clears and saves after the launch,
    and whatever the remote answers, between two actions the store has the
    bound 20 and at most 40 turns, every stored role is "user" or
    "assistant", and the store is empty or ends with an assistant's turn. *)
Theorem session_settled (re_sub : ReSub) (ts : string) (fs : Files)
    (actions : list UI.Action) :
  settled (UI.session re_sub ts fs actions).
Proof.
  induction actions as [|a actions IH] using rev_ind.
  - apply settled_launch.
  - unfold UI.session in *. rewrite foldl_app. simpl.
    by apply settled_act.
Qed.

(** X18. What a send stores as the assistant's turn, the text of the reply
    or, when [chat] raised, the text of the error, is replayed by the next
    send: it is the last item of the history of the next request, with the
    role "model". *)
Theorem reply_replayed (re_sub : ReSub) (remote : Remote)
    (ts_user ts_reply : string) (w : UI.World) (next : string)
    (Hm : 0 < CM.max_turns (UI.conversation w))
    (Hin : ¬ blank (UI.user_input w)) :
  let text := PyStr.strip (UI.user_input w) in
  let res := (LLM.chat remote (CM.add (UI.conversation w) "user" text) 3).1 in
  let w' := (UI.on_send re_sub remote ts_user ts_reply w).1 in
  last (CM.history (UI.conversation w')) =
    Some (mkTurn "assistant" (UI.reply_of res)) ∧
  last (req_history (LLM.request (CM.add (UI.conversation w') "user" next))) =
    Some (mkGeminiMsg "model" [mkPart (UI.reply_of res)]).
Proof.
  intros text res w'.
  assert (Htext : text ≠ "") by (intros H%strip_blank; done).
  destruct (LLM.chat remote (CM.add (UI.conversation w) "user" text) 3)
    as [r tr] eqn:Hchat.
  destruct (on_send_nonblank re_sub remote ts_user ts_reply w r tr
              Htext Hchat) as (Hconv & _).
  fold w' in Hconv. subst res. cbn [fst].
  set (conv := CM.add (UI.conversation w) "user" text) in *.
  assert (Hm' : 0 < CM.max_turns (UI.conversation w'))
    by by rewrite Hconv; unfold conv; rewrite !add_max_turns.
  assert (Hlast : last (CM.history (UI.conversation w')) =
                  Some (mkTurn "assistant" (UI.reply_of r))).
  { rewrite Hconv. apply add_newest_pos. unfold conv.
    by rewrite add_max_turns. }
  split; [done|].
  apply last_Some in Hlast as [h0 Hh0].
  destruct (views_after_user_add (UI.conversation w') next Hm')
    as (Hl & h & Hh & Hv).
  unfold LLM.request. cbn [req_history]. rewrite Hv.
  rewrite add_history_pos in Hh by done. cbv zeta in Hh.
  rewrite Hh0, !length_app in Hh. simpl in Hh.
  rewrite drop_app_le in Hh by (rewrite length_app; simpl; lia).
  apply app_inj_tail in Hh as [<- _].
  rewrite drop_app_le by lia. rewrite map_app. simpl.
  rewrite last_snoc. done.
Qed.

Lemma reply_replayed_witness :
  let re_sub : ReSub := λ _ _ s _, s in
  let w := UI.type_text "hello" (UI.launch re_sub "09:00" ∅) in
  let remote := LLM.scripted [Failure "429 quota exceeded"] in
  let w' := (UI.on_send re_sub remote "09:01" "09:02" w).1 in
  last (req_history (LLM.request (CM.add (UI.conversation w') "user" "again")))
  = Some (mkGeminiMsg "model" [mkPart (UI.reply_of (Raise RateLimited))]).
Proof.
  intros re_sub w remote w'.
  assert (Hm : 0 < CM.max_turns (UI.conversation w)) by (simpl; lia).
  assert (Hin : ¬ blank (UI.user_input w)).
  { intros Hb. apply strip_blank in Hb. discriminate Hb. }
  exact (proj2 (reply_replayed re_sub remote "09:01" "09:02" w "again" Hm Hin)).
Defined.

(** X19. The first request after the launch replays the welcome text as a
    "model" turn; the first request after a clear, on a store whose bound
    is not negative, replays nothing. *)
Theorem first_request (re_sub : ReSub) (ts : string) (fs : Files)
    (w : UI.World) (c : string)
    (Hm : 0 ≤ CM.max_turns (UI.conversation w)) :
  LLM.request (CM.add (UI.conversation (UI.launch re_sub ts fs)) "user" c) =
    mkRequest [mkGeminiMsg "model" [mkPart UI.welcome]] c ∧
  LLM.request (CM.add (UI.conversation (UI.on_clear w).1) "user" c) =
    mkRequest [] c.
Proof.
  split.
  - unfold UI.launch, UI.build_chatbot_ui. cbn [fst UI.conversation].
    assert (Hadd : CM.history (CM.add CM.default "assistant" UI.welcome) =
                   [mkTurn "assistant" UI.welcome]).
    { by rewrite add_history_pos by (simpl; lia). }
    assert (Hadd2 : CM.history (CM.add (CM.add CM.default "assistant"
                                          UI.welcome) "user" c) =
                    [mkTurn "assistant" UI.welcome; mkTurn "user" c]).
    { rewrite add_history_pos by (simpl; lia). by rewrite Hadd. }
    unfold LLM.request, CM.to_gemini_history, CM.latest_user_message.
    rewrite Hadd2. reflexivity.
  - unfold UI.on_clear. cbn [fst UI.conversation].
    assert (Hh : CM.history (CM.add (CM.clear (UI.conversation w)) "user" c)
                 = [mkTurn "user" c]).
    { unfold CM.add, CM.clear. cbn [CM.history CM.max_turns app length].
      destruct (Z.gtb_spec (Z.of_nat 1) (CM.max_turns (UI.conversation w) * 2))
        as [Hgt|Hle]; [|done].
      replace (CM.max_turns (UI.conversation w)) with 0 by lia. done. }
    unfold LLM.request, CM.to_gemini_history, CM.latest_user_message.
    rewrite Hh. reflexivity.
Qed.

Lemma first_request_witness :
  let re_sub : ReSub := λ _ _ s _, s in
  let w := UI.launch re_sub "09:00" ∅ in
  LLM.request (CM.add (UI.conversation (UI.on_clear w).1) "user" "hi") =
    mkRequest [] "hi".
Proof.
  intros re_sub w.
  exact (proj2 (first_request re_sub "09:00" ∅ w "hi" ltac:(simpl; lia))).
Defined.

(** ** More on what is sent and what is retried *)

Lemma occurs_in_trans (a b c : string) :
  occurs_in a b → occurs_in b c → occurs_in a c.
Proof. intros Hab (p & q & ->). by apply occurs_in_app. Qed.

(** X20. A failure whose message contains "generate", in any case of its
    letters, is taken for a rate limit, "rate" being part of that word:
    [chat] does not retry it and raises the rate-limit error. *)
Theorem chat_generate_not_retried
    (remote : Remote) (conversation : CM.t) (retries : Z)
    (res : Result) (tr pre : list Event) (a : Z) (rq : Request) (e : string)
    (post : list Event)
    (Hchat : LLM.chat remote conversation retries = (res, tr))
    (Htr : tr = pre ++ Call a rq (Failure e) :: post)
    (He : occurs_in "generate" (Py.lower e)) :
  rate_like e ∧ res = Raise RateLimited ∧ post = [].
Proof.
  assert (Hrate : rate_like e).
  { right. apply (occurs_in_trans _ "generate"); [|done]. by exists "gene", "". }
  split; [done|].
  by apply (chat_after_failure _ _ _ _ _ _ _ _ _ _ Hchat Htr).
Qed.

Lemma chat_generate_not_retried_witness :
  let conversation := CM.add CM.default "user" "hello" in
  let remote :=
    LLM.scripted [Failure "generateContent: connection reset"; Response "hi"] in
  (LLM.chat remote conversation 3).1 = Raise RateLimited ∧
  drop 1 (LLM.chat remote conversation 3).2 = [].
Proof.
  intros conversation remote.
  apply (chat_generate_not_retried remote conversation 3 _ _ [] 1
           (LLM.request conversation) "generateContent: connection reset" _
           eq_refl eq_refl).
  apply contains_occurs. reflexivity.
Defined.

(** X21. [chat] does not look at what it sends: on a store without a user's
    turn, an empty one for instance, and with an attempt allowed, it calls
    the remote with the empty prompt. *)
Theorem chat_empty_prompt
    (remote : Remote) (conversation : CM.t) (retries : Z)
    (res : Result) (tr : list Event)
    (Hchat : LLM.chat remote conversation retries = (res, tr))
    (Hnone : Forall (λ x, role x ≠ "user") (CM.history conversation))
    (Hr : 1 ≤ retries) :
  ∃ o tr', tr = Call 1 (LLM.request conversation) o :: tr' ∧
           req_text (LLM.request conversation) = "".
Proof.
  pose proof (chat_runs _ _ _ _ _ Hchat) as Hruns.
  destruct (runs_head _ _ _ _ _ _ _ Hruns Hr) as (o & tr' & ->).
  exists o, tr'. split; [done|].
  by apply latest_user_message_none.
Qed.

Lemma chat_empty_prompt_witness :
  ∃ o tr',
    (LLM.chat (LLM.scripted [Response "Hello!"]) CM.default 3).2 =
      Call 1 (LLM.request CM.default) o :: tr' ∧
    req_text (LLM.request CM.default) = "".
Proof.
  exact (chat_empty_prompt (LLM.scripted [Response "Hello!"]) CM.default 3
           _ _ eq_refl ltac:(constructor) ltac:(lia)).
Defined.
